(** * cmap: a sharded map (concurrent_map.go), sequential semantics

    The development embeds the Go package [cmap] shallowly.  A
    [ConcurrentMap] is its slice of shards and its sharding function;
    every method is a function that takes the current value of the
    package variable [SHARD_COUNT] and the map, and returns either a
    result or the fault that stops the Go program.  Locks have no
    content in a single-caller run and are left out; the goroutines of
    [snapshot], [fanIn] and [Keys] are modelled by their joint outcome. *)

From Stdlib Require Import ZArith Lia Ascii String.
From stdpp Require Import gmap strings list fin_maps.

(** ** 32-bit hashing *)

(** Go's [uint32] arithmetic wraps modulo 2^32. *)
Definition uint32 (z : Z) : Z := (z mod 2 ^ 32)%Z.

(** [uint(x)] on a 64-bit platform. *)
Definition uint (z : Z) : Z := (z mod 2 ^ 64)%Z.

(** [uint32(key[i])]: the byte at an index of a Go string. *)
Definition byte_val (c : ascii) : Z := Z.of_N (N_of_ascii c).

Definition fnv_offset32 : Z := 2166136261%Z.
Definition prime32 : Z := 16777619%Z.

(** The loop of [fnv32]: [n] iterations remain, [i] is the loop index.
    [key[i]] is always in range since [i < keyLength]. *)
Fixpoint fnv32_loop (key : string) (n i : nat) (hash : Z) : Z :=
  match n with
  | O => hash
  | S n' =>
      match String.get i key with
      | Some c =>
          let hash1 := uint32 (hash * prime32) in
          let hash2 := Z.lxor hash1 (byte_val c) in
          fnv32_loop key n' (S i) hash2
      | None => hash
      end
  end.

Definition fnv32 (key : string) : Z :=
  let hash := uint32 fnv_offset32 in
  let keyLength := String.length key in
  fnv32_loop key keyLength 0 hash.

(** Go's [fmt.Stringer]. *)
Class Stringer (K : Type) := Stringer_String : K → string.

Definition strfnv32 {K} `{Stringer K} (key : K) : Z :=
  fnv32 (Stringer_String key).

(** The bytes of a Go string, in order. *)
Fixpoint string_bytes (s : string) : list Z :=
  match s with
  | EmptyString => []
  | String c rest => byte_val c :: string_bytes rest
  end.

(** The hash as the specification words it: start from the offset basis
    and, per byte, multiply by the prime modulo 2^32, then xor the byte. *)
Definition fnv_step (hash b : Z) : Z :=
  Z.lxor ((hash * 16777619) mod 2 ^ 32)%Z b.

Definition fnv_spec (bs : list Z) : Z :=
  fold_left fnv_step bs 2166136261%Z.

(** ** Faults and results *)

(** What stops a call instead of a return. *)
Inductive fault : Type :=
  | NotInitialized     (* panic(`cmap.ConcurrentMap is not initialized. ...`) *)
  | NilDereference     (* runtime: call of a nil func value *)
  | IndexOutOfRange    (* runtime: index out of range *)
  | DivideByZero       (* runtime: integer divide by zero *)
  | MakeSliceLen       (* runtime: makeslice: len out of range *)
  | NegativeWaitGroup  (* sync: negative WaitGroup counter *)
  | Deadlock.          (* wg.Wait() / channel receive that never returns *)

Inductive result (A : Type) : Type :=
  | Ok (a : A)
  | Fault (f : fault).
Arguments Ok {A} a.
Arguments Fault {A} f.

#[global] Instance fault_eq_dec : EqDecision fault.
Proof. solve_decision. Defined.

#[global] Instance result_ret : MRet result := λ A a, Ok a.
#[global] Instance result_bind : MBind result := λ A B f r,
  match r with
  | Ok a => f a
  | Fault e => Fault e
  end.

(** Go's zero value of a type. *)
Class ZeroValue (V : Type) := zero_value : V.
#[global] Instance Z_zero_value : ZeroValue Z := 0%Z.
#[global] Instance bool_zero_value : ZeroValue bool := false.
#[global] Instance string_zero_value : ZeroValue string := EmptyString.

(** [v, ok := items[key]] *)
Definition comma_ok {K V} `{Countable K} `{ZeroValue V}
    (items : gmap K V) (key : K) : V * bool :=
  match items !! key with
  | Some v => (v, true)
  | None => (zero_value, false)
  end.

(** ** The map *)

Section cmap.
Context {K : Type} `{Countable K} {V : Type} `{ZeroValue V}.

(** [ConcurrentMapShared]: the inner map; its RWMutex is not modelled. *)
Record ConcurrentMapShared : Type := mkShared { items : gmap K V }.

(** [ConcurrentMap]: [shards] holds the shards the pointers of the Go
    slice lead to, so that a pointer to a shard is its index in the list;
    [sharding] is [None] for a nil func value. *)
Record ConcurrentMap : Type := mkMap {
  shards : list ConcurrentMapShared;
  sharding : option (K → Z)
}.

(** The zero value of the struct: nil slice, nil func. *)
Definition zero_map : ConcurrentMap := mkMap [] None.

(** [make] allocates [SHARD_COUNT] pointers and the loop makes every one
    lead to a fresh shard with an empty [items]. *)
Definition create (SHARD_COUNT : Z) (sharding : K → Z) : result ConcurrentMap :=
  if decide (SHARD_COUNT < 0)%Z then Fault MakeSliceLen
  else Ok (mkMap (replicate (Z.to_nat SHARD_COUNT) (mkShared ∅)) (Some sharding)).

Definition NewWithCustomShardingFunction (SHARD_COUNT : Z) (sharding : K → Z)
    : result ConcurrentMap :=
  create SHARD_COUNT sharding.

Definition GetMap (cms : ConcurrentMapShared) : gmap K V := items cms.

(** [m.shards[uint(m.sharding(key)) % uint(SHARD_COUNT)]]: the call of
    [sharding] comes first, then the remainder, then the bounds check.
    The result is the pointer, that is the index of the shard. *)
Definition GetShard (SHARD_COUNT : Z) (m : ConcurrentMap) (key : K) : result nat :=
  match sharding m with
  | None => Fault NilDereference
  | Some f =>
      let h := uint (uint32 (f key)) in
      let d := uint SHARD_COUNT in
      if decide (d = 0)%Z then Fault DivideByZero
      else
        let i := Z.to_nat (h mod d) in
        if decide (i < length (shards m)) then Ok i else Fault IndexOutOfRange
  end.

(** Reading and writing through a shard pointer. *)
Definition deref (m : ConcurrentMap) (p : nat) : result ConcurrentMapShared :=
  match shards m !! p with
  | Some s => Ok s
  | None => Fault IndexOutOfRange
  end.

Definition store_items (m : ConcurrentMap) (p : nat) (f : gmap K V → gmap K V)
    : ConcurrentMap :=
  mkMap (alter (λ s, mkShared (f (items s))) p (shards m)) (sharding m).

Definition Set_ (SHARD_COUNT : Z) (m : ConcurrentMap) (key : K) (value : V)
    : result ConcurrentMap :=
  shard ← GetShard SHARD_COUNT m key;
  Ok (store_items m shard (λ items, <[key := value]> items)).

Definition Upsert (SHARD_COUNT : Z) (m : ConcurrentMap) (key : K) (value : V)
    (cb : bool → V → V → V) : result (ConcurrentMap * V) :=
  shard ← GetShard SHARD_COUNT m key;
  s ← deref m shard;
  let '(v, ok) := comma_ok (items s) key in
  let res := cb ok v value in
  Ok (store_items m shard (λ items, <[key := res]> items), res).

Definition SetIfAbsent (SHARD_COUNT : Z) (m : ConcurrentMap) (key : K) (value : V)
    : result (ConcurrentMap * bool) :=
  shard ← GetShard SHARD_COUNT m key;
  s ← deref m shard;
  let '(_, ok) := comma_ok (items s) key in
  let m' := if negb ok
            then store_items m shard (λ items, <[key := value]> items)
            else m in
  Ok (m', negb ok).

Definition Get (SHARD_COUNT : Z) (m : ConcurrentMap) (key : K) : result (V * bool) :=
  shard ← GetShard SHARD_COUNT m key;
  s ← deref m shard;
  Ok (comma_ok (items s) key).

Definition Has (SHARD_COUNT : Z) (m : ConcurrentMap) (key : K) : result bool :=
  shard ← GetShard SHARD_COUNT m key;
  s ← deref m shard;
  let '(_, ok) := comma_ok (items s) key in
  Ok ok.

Definition Remove (SHARD_COUNT : Z) (m : ConcurrentMap) (key : K)
    : result ConcurrentMap :=
  shard ← GetShard SHARD_COUNT m key;
  Ok (store_items m shard (λ items, delete key items)).

Definition RemoveCb (SHARD_COUNT : Z) (m : ConcurrentMap) (key : K)
    (cb : K → V → bool → bool) : result (ConcurrentMap * bool) :=
  shard ← GetShard SHARD_COUNT m key;
  s ← deref m shard;
  let '(v, ok) := comma_ok (items s) key in
  let remove := cb key v ok in
  let m' := if remove && ok
            then store_items m shard (λ items, delete key items)
            else m in
  Ok (m', remove).

Definition Pop (SHARD_COUNT : Z) (m : ConcurrentMap) (key : K)
    : result (ConcurrentMap * (V * bool)) :=
  shard ← GetShard SHARD_COUNT m key;
  s ← deref m shard;
  let '(v, exists_) := comma_ok (items s) key in
  Ok (store_items m shard (λ items, delete key items), (v, exists_)).

(** [for i := 0; i < SHARD_COUNT; i++]: [n] iterations remain. *)
Fixpoint Count_loop (m : ConcurrentMap) (n i : nat) (count : Z) : result Z :=
  match n with
  | O => Ok count
  | S n' =>
      shard ← deref m i;
      Count_loop m n' (S i) (count + Z.of_nat (size (items shard)))%Z
  end.

Definition Count (SHARD_COUNT : Z) (m : ConcurrentMap) : result Z :=
  Count_loop m (Z.to_nat SHARD_COUNT) 0 0%Z.

Definition IsEmpty (SHARD_COUNT : Z) (m : ConcurrentMap) : result bool :=
  count ← Count SHARD_COUNT m;
  Ok (bool_decide (count = 0%Z)).

Record Tuple : Type := mkTuple { Key : K; Val : V }.

(** Go leaves two orders open: the order in which [range] visits a map,
    and the order in which goroutines that send on one channel get
    through.  The bulk operations are parametric in both. *)
Variable range_map : gmap K V → list (K * V).
Variable interleave : ∀ A : Type, list (list A) → list A.

Definition MSet (SHARD_COUNT : Z) (m : ConcurrentMap) (data : gmap K V)
    : result ConcurrentMap :=
  foldl (λ r kv, m' ← r; Set_ SHARD_COUNT m' kv.1 kv.2) (Ok m) (range_map data).

(** One goroutine per shard fills [chans[index]] with the tuples of the
    shard and the caller waits for [SHARD_COUNT] of them.  With fewer
    shards than [SHARD_COUNT] the wait never ends; with more, a
    goroutine indexes [chans] out of range. *)
Definition snapshot (SHARD_COUNT : Z) (m : ConcurrentMap) : result (list (list Tuple)) :=
  if decide (length (shards m) = 0) then Fault NotInitialized
  else if decide (SHARD_COUNT < 0)%Z then Fault MakeSliceLen
  else if decide (Z.to_nat SHARD_COUNT < length (shards m)) then Fault IndexOutOfRange
  else if decide (length (shards m) < Z.to_nat SHARD_COUNT) then Fault Deadlock
  else Ok ((λ shard, (λ kv, mkTuple kv.1 kv.2) <$> range_map (items shard)) <$> shards m).

(** What a reader of [out] receives until [out] is closed. *)
Definition fanIn (chans : list (list Tuple)) : list Tuple := interleave Tuple chans.

Definition Iter (SHARD_COUNT : Z) (m : ConcurrentMap) : result (list Tuple) :=
  chans ← snapshot SHARD_COUNT m;
  Ok (fanIn chans).

Definition IterBuffered (SHARD_COUNT : Z) (m : ConcurrentMap) : result (list Tuple) :=
  chans ← snapshot SHARD_COUNT m;
  Ok (fanIn chans).

Definition Clear (SHARD_COUNT : Z) (m : ConcurrentMap) : result ConcurrentMap :=
  ch ← IterBuffered SHARD_COUNT m;
  foldl (λ r item, m' ← r; Remove SHARD_COUNT m' (Key item)) (Ok m) ch.

(** [tmp[item.Key] = item.Val] for every received item. *)
Definition collect (ch : list Tuple) : gmap K V :=
  foldl (λ tmp item, <[Key item := Val item]> tmp) ∅ ch.

Definition Items (SHARD_COUNT : Z) (m : ConcurrentMap) : result (gmap K V) :=
  ch ← IterBuffered SHARD_COUNT m;
  Ok (collect ch).

(** [IterCb]: the callback acts on a state [S] of the caller. *)
Definition IterCb {S : Type} (m : ConcurrentMap) (fn : K → V → S → S) (s0 : S) : S :=
  foldl (λ s shard, foldl (λ s' kv, fn kv.1 kv.2 s') s (range_map (items shard)))
        s0 (shards m).

(** [Keys]: [Count] sizes the channel; the goroutines send the keys of
    every shard and [SHARD_COUNT] of them are waited for. *)
Definition Keys (SHARD_COUNT : Z) (m : ConcurrentMap) : result (list K) :=
  count ← Count SHARD_COUNT m;
  if decide (SHARD_COUNT < 0)%Z then Fault NegativeWaitGroup
  else if decide (Z.to_nat SHARD_COUNT < length (shards m)) then Fault NegativeWaitGroup
  else if decide (length (shards m) < Z.to_nat SHARD_COUNT) then Fault Deadlock
  else Ok (interleave K ((λ shard, (range_map (items shard)).*1) <$> shards m)).

(** The JSON codec is the library's: [json.Marshal] of a [map[K]V] and
    [json.Unmarshal] into an empty one. [inl] is a nil error. *)
Variable error : Type.
Variable json_Marshal : gmap K V → list Byte.byte + error.
Variable json_Unmarshal : list Byte.byte → gmap K V + error.

Definition MarshalJSON (SHARD_COUNT : Z) (m : ConcurrentMap)
    : result (list Byte.byte + error) :=
  ch ← IterBuffered SHARD_COUNT m;
  Ok (json_Marshal (collect ch)).

(** The receiver is a pointer: the call returns the map it leaves and
    the error, [None] for nil. *)
Definition UnmarshalJSON (SHARD_COUNT : Z) (m : ConcurrentMap) (b : list Byte.byte)
    : result (ConcurrentMap * option error) :=
  match json_Unmarshal b with
  | inr err => Ok (m, Some err)
  | inl tmp =>
      m' ← foldl (λ r kv, m' ← r; Set_ SHARD_COUNT m' kv.1 kv.2) (Ok m) (range_map tmp);
      Ok (m', None)
  end.

(** ** Runs of a single caller *)

(** A call of a method of the map, with its arguments. *)
Inductive call : Type :=
  | CallSet (key : K) (value : V)
  | CallMSet (data : gmap K V)
  | CallUpsert (key : K) (value : V) (cb : bool → V → V → V)
  | CallSetIfAbsent (key : K) (value : V)
  | CallGet (key : K)
  | CallCount
  | CallHas (key : K)
  | CallRemove (key : K)
  | CallRemoveCb (key : K) (cb : K → V → bool → bool)
  | CallPop (key : K)
  | CallIsEmpty
  | CallIter
  | CallIterBuffered
  | CallClear
  | CallItems
  | CallKeys
  | CallMarshalJSON
  | CallUnmarshalJSON (b : list Byte.byte).

(** What a call returns to its caller. *)
Inductive ret : Type :=
  | RetNothing
  | RetValue (v : V)
  | RetBool (b : bool)
  | RetValueBool (v : V) (ok : bool)
  | RetInt (n : Z)
  | RetTuples (ch : list Tuple)
  | RetItems (tmp : gmap K V)
  | RetKeys (keys : list K)
  | RetBytes (b : list Byte.byte + error)
  | RetError (err : option error).

Definition exec (SHARD_COUNT : Z) (m : ConcurrentMap) (c : call)
    : result (ConcurrentMap * ret) :=
  match c with
  | CallSet key value => m' ← Set_ SHARD_COUNT m key value; Ok (m', RetNothing)
  | CallMSet data => m' ← MSet SHARD_COUNT m data; Ok (m', RetNothing)
  | CallUpsert key value cb =>
      '(m', res) ← Upsert SHARD_COUNT m key value cb; Ok (m', RetValue res)
  | CallSetIfAbsent key value =>
      '(m', b) ← SetIfAbsent SHARD_COUNT m key value; Ok (m', RetBool b)
  | CallGet key => '(v, ok) ← Get SHARD_COUNT m key; Ok (m, RetValueBool v ok)
  | CallCount => n ← Count SHARD_COUNT m; Ok (m, RetInt n)
  | CallHas key => b ← Has SHARD_COUNT m key; Ok (m, RetBool b)
  | CallRemove key => m' ← Remove SHARD_COUNT m key; Ok (m', RetNothing)
  | CallRemoveCb key cb =>
      '(m', b) ← RemoveCb SHARD_COUNT m key cb; Ok (m', RetBool b)
  | CallPop key => '(m', (v, ok)) ← Pop SHARD_COUNT m key; Ok (m', RetValueBool v ok)
  | CallIsEmpty => b ← IsEmpty SHARD_COUNT m; Ok (m, RetBool b)
  | CallIter => ch ← Iter SHARD_COUNT m; Ok (m, RetTuples ch)
  | CallIterBuffered => ch ← IterBuffered SHARD_COUNT m; Ok (m, RetTuples ch)
  | CallClear => m' ← Clear SHARD_COUNT m; Ok (m', RetNothing)
  | CallItems => tmp ← Items SHARD_COUNT m; Ok (m, RetItems tmp)
  | CallKeys => keys ← Keys SHARD_COUNT m; Ok (m, RetKeys keys)
  | CallMarshalJSON => b ← MarshalJSON SHARD_COUNT m; Ok (m, RetBytes b)
  | CallUnmarshalJSON b =>
      '(m', err) ← UnmarshalJSON SHARD_COUNT m b; Ok (m', RetError err)
  end.

(** The keys whose binding a call can write or delete. *)
Definition writes (c : call) (k : K) : Prop :=
  match c with
  | CallSet key _ | CallUpsert key _ _ | CallSetIfAbsent key _
  | CallRemove key | CallRemoveCb key _ | CallPop key => key = k
  | CallMSet data => is_Some (data !! k)
  | CallClear => True
  | CallUnmarshalJSON b =>
      match json_Unmarshal b with
      | inl tmp => is_Some (tmp !! k)
      | inr _ => False
      end
  | _ => False
  end.

(** A sequence of calls on one map, [SHARD_COUNT] unchanged. *)
Fixpoint exec_all (SHARD_COUNT : Z) (m : ConcurrentMap) (cs : list call)
    : result (ConcurrentMap * list ret) :=
  match cs with
  | [] => Ok (m, [])
  | c :: cs' =>
      '(m1, r) ← exec SHARD_COUNT m c;
      '(m2, rs) ← exec_all SHARD_COUNT m1 cs';
      Ok (m2, r :: rs)
  end.

(** A step of a program that also assigns the package variable. *)
Inductive step : Type :=
  | Assign (shard_count : Z)     (* SHARD_COUNT = shard_count *)
  | Call (c : call).

Fixpoint run (SHARD_COUNT : Z) (m : ConcurrentMap) (prog : list step)
    : result (Z * ConcurrentMap * list ret) :=
  match prog with
  | [] => Ok (SHARD_COUNT, m, [])
  | Assign shard_count :: prog' => run shard_count m prog'
  | Call c :: prog' =>
      '(m1, r) ← exec SHARD_COUNT m c;
      '(sc, m2, rs) ← run SHARD_COUNT m1 prog';
      Ok (sc, m2, r :: rs)
  end.

(** The calls of a program, its assignments dropped. *)
Fixpoint calls_of (prog : list step) : list call :=
  match prog with
  | [] => []
  | Assign _ :: prog' => calls_of prog'
  | Call c :: prog' => c :: calls_of prog'
  end.

(** Every call of the program runs while [SHARD_COUNT] is [N]. *)
Fixpoint calls_at (N : Z) (SHARD_COUNT : Z) (prog : list step) : Prop :=
  match prog with
  | [] => True
  | Assign shard_count :: prog' => calls_at N shard_count prog'
  | Call _ :: prog' => SHARD_COUNT = N ∧ calls_at N SHARD_COUNT prog'
  end.

(** ** Maps that a factory built *)

(** The shard index of a key under a shard count. *)
Definition route (SHARD_COUNT : Z) (f : K → Z) (key : K) : nat :=
  Z.to_nat (uint (uint32 (f key)) mod uint SHARD_COUNT).

(** A map built by [create] under shard count [N] and used under it:
    [N] shards, a sharding function, and every key in the shard it
    routes to. *)
Record initialized (N : Z) (m : ConcurrentMap) : Prop := mkInitialized {
  init_count : (0 < N < 2 ^ 63)%Z;
  init_shards : length (shards m) = Z.to_nat N;
  init_sharding : is_Some (sharding m);
  init_routed : ∀ f i s k, sharding m = Some f → shards m !! i = Some s →
                  is_Some (items s !! k) → route N f k = i
}.

(** The binding of a key, read in the shard the key routes to. *)
Definition entry (N : Z) (m : ConcurrentMap) (k : K) : option V :=
  f ← sharding m;
  s ← shards m !! route N f k;
  items s !! k.

(** The binding of [k] after the assignments [tmp[kv.1] = kv.2] of a
    list, from [d]. *)
Definition bind_of (l : list (K * V)) (k : K) (d : option V) : option V :=
  foldl (λ o kv, if decide (kv.1 = k) then Some kv.2 else o) d l.

(** [(v, ok)] for a binding. *)
Definition found (o : option V) : V * bool :=
  match o with
  | Some v => (v, true)
  | None => (zero_value, false)
  end.

End cmap.

Arguments ConcurrentMapShared K {_ _} V.
Arguments ConcurrentMap K {_ _} V.
Arguments Tuple K V : clear implicits.
Arguments call K {_ _} V.
Arguments ret K {_ _} V error.
Arguments step K {_ _} V.

Definition New {V : Type} (SHARD_COUNT : Z) : result (ConcurrentMap string V) :=
  create SHARD_COUNT fnv32.


(** ** Instances used in the examples *)

(** Go's [int] addition wraps in 64 bits. *)
Definition int_add (a b : Z) : Z := ((a + b + 2 ^ 63) mod 2 ^ 64 - 2 ^ 63)%Z.

(** The callback of the upsert scenario:
    [exist ? valueInMap + newValue : newValue]. *)
Definition add_cb (exist : bool) (valueInMap newValue : Z) : Z :=
  if exist then int_add valueInMap newValue else newValue.

(** A codec that round-trips, for maps with countable keys and values:
    the digits of the code of the map, one byte per binary digit. *)
Fixpoint pos_bytes (p : positive) : list Byte.byte :=
  match p with
  | xH => []
  | xO q => Byte.x30 :: pos_bytes q
  | xI q => Byte.x31 :: pos_bytes q
  end.

Fixpoint bytes_pos (b : list Byte.byte) : option positive :=
  match b with
  | [] => Some xH
  | Byte.x30 :: r => xO <$> bytes_pos r
  | Byte.x31 :: r => xI <$> bytes_pos r
  | _ => None
  end.

Definition digits_Marshal {K V} `{Countable K} `{Countable V} (tmp : gmap K V)
    : list Byte.byte + string :=
  inl (pos_bytes (encode tmp)).

Definition digits_Unmarshal {K V} `{Countable K} `{Countable V} (b : list Byte.byte)
    : gmap K V + string :=
  match bytes_pos b ≫= decode with
  | Some tmp => inl tmp
  | None => inr "invalid character"%string
  end.

(** The orders of a run in which [range] follows the order of the keys
    and the goroutines get through shard by shard. *)
Definition range_sorted {K V : Type} `{Countable K} : gmap K V → list (K * V) :=
  map_to_list.

Definition shard_by_shard : ∀ A : Type, list (list A) → list A := @concat.

(** [New[int]()] under the default shard count, and the same map after
    [Set("a", 100)]: "a" hashes to 84696446, shard 30. *)
Definition fresh32 : ConcurrentMap string Z :=
  mkMap (replicate 32 (mkShared ∅)) (Some fnv32).

Definition example_map : ConcurrentMap string Z :=
  store_items fresh32 30 (λ items, <["a"%string := 100%Z]> items).

(** A program that changes [SHARD_COUNT] and restores it before the
    next call, as [runWithShards] does around a benchmark. *)
Definition restoring_prog : list (step string Z) :=
  [Call (CallSet "a"%string 100%Z); Assign 16; Assign 32;
   Call (CallGet "a"%string); Call CallCount].

(** A key type whose [String] method gives the name it wraps. *)
Record Name : Type := mkName { name_of : string }.

#[global] Instance Name_eq_dec : EqDecision Name.
Proof. solve_decision. Defined.

#[global] Instance Name_countable : Countable Name :=
  inj_countable' name_of mkName (λ n, match n with mkName s => eq_refl end).

#[global] Instance Name_Stringer : Stringer Name := name_of.

(** What [MarshalJSON] gives for [example_map] with the codec of digits. *)
Definition example_bytes : list Byte.byte :=
  pos_bytes (encode ({["a"%string := 100%Z]} : gmap string Z)).

(** Calls that leave the key "a" alone. *)
Definition other_calls : list (call string Z) :=
  [CallSet "b"%string 1%Z; CallGet "a"%string; CallRemove "c"%string; CallCount;
   CallItems].

(** * Properties *)

(** ** Hashing *)

Lemma lxor_bound (n a b : Z) :
  (0 < n)%Z → (0 ≤ a < 2 ^ n)%Z → (0 ≤ b < 2 ^ n)%Z → (0 ≤ Z.lxor a b < 2 ^ n)%Z.
Proof.
  intros Hn Ha Hb.
  assert (0 ≤ Z.lxor a b)%Z as Hx by (apply Z.lxor_nonneg; lia).
  split; [done|].
  destruct (decide (Z.lxor a b = 0)%Z) as [->|Hz]; [apply Z.pow_pos_nonneg; lia|].
  apply Z.log2_lt_pow2; [lia|].
  pose proof (Z.log2_lxor a b ltac:(lia) ltac:(lia)) as Hl.
  assert (Z.log2 a < n)%Z.
  { destruct (decide (a = 0)%Z) as [->|]; [simpl; lia|]. apply Z.log2_lt_pow2; lia. }
  assert (Z.log2 b < n)%Z.
  { destruct (decide (b = 0)%Z) as [->|]; [simpl; lia|]. apply Z.log2_lt_pow2; lia. }
  lia.
Qed.

Lemma byte_val_bound (c : ascii) : (0 ≤ byte_val c < 2 ^ 32)%Z.
Proof.
  unfold byte_val. pose proof (N_ascii_bounded c) as Hc.
  change (2 ^ 32)%Z with 4294967296%Z. lia.
Qed.

Lemma fnv_step_bound (h : Z) (c : ascii) : (0 ≤ fnv_step h (byte_val c) < 2 ^ 32)%Z.
Proof.
  unfold fnv_step. apply lxor_bound; [lia| |apply byte_val_bound].
  apply Z.mod_pos_bound. lia.
Qed.

Lemma fnv_fold_bound (s : string) (h : Z) :
  (0 ≤ h < 2 ^ 32)%Z → (0 ≤ fold_left fnv_step (string_bytes s) h < 2 ^ 32)%Z.
Proof.
  revert h. induction s as [|c s IH]; intros h Hh; simpl; [done|].
  apply IH, fnv_step_bound.
Qed.

(** The index loop reads the string from [i] on as [rest]. *)
Lemma fnv32_loop_fold (rest key : string) (i : nat) (h : Z) :
  (∀ j, String.get (i + j) key = String.get j rest) →
  fnv32_loop key (String.length rest) i h = fold_left fnv_step (string_bytes rest) h.
Proof.
  revert i h. induction rest as [|c rest IH]; intros i h Hget; simpl; [done|].
  pose proof (Hget 0) as H0. rewrite Nat.add_0_r in H0. simpl in H0. rewrite H0.
  rewrite IH; [done|]. intros j. specialize (Hget (S j)).
  rewrite Nat.add_succ_r in Hget. exact Hget.
Qed.

(** C7: for every string, [fnv32] is the 32-bit value obtained from
    2166136261 by the update [hash = (hash * 16777619) xor b] per byte,
    in order, modulo 2^32; and [strfnv32] of a Stringer key is [fnv32]
    of its string. *)
Theorem fnv32_spec :
  (∀ s : string,
     fnv32 s = fnv_spec (string_bytes s) ∧ (0 ≤ fnv32 s < 2 ^ 32)%Z) ∧
  (∀ (K : Type) (St : Stringer K) (k : K), strfnv32 k = fnv32 (Stringer_String k)).
Proof.
  split; [|done]. intros s.
  assert (fnv32 s = fnv_spec (string_bytes s)) as Heq.
  { unfold fnv32, fnv_spec. by rewrite (fnv32_loop_fold s s 0). }
  split; [done|]. rewrite Heq. unfold fnv_spec. apply fnv_fold_bound.
  change (2 ^ 32)%Z with 4294967296%Z. lia.
Qed.

Example fnv32_empty : fnv32 "" = 2166136261%Z.
Proof. reflexivity. Qed.

Example fnv32_a : fnv32 "a" = 84696446%Z.
Proof. reflexivity. Qed.

Example fnv32_key : fnv32 "key" = 1183067778%Z.
Proof. reflexivity. Qed.

(** ** The map *)

Section proofs.
Context {K : Type} `{Countable K} {V : Type} `{ZeroValue V}.
Variable range_map : gmap K V → list (K * V).
Variable interleave : ∀ A : Type, list (list A) → list A.
Variable error : Type.
Variable json_Marshal : gmap K V → list Byte.byte + error.
Variable json_Unmarshal : list Byte.byte → gmap K V + error.

(** Whatever the orders are, [range] visits every binding once and
    every value sent is received once. *)
Hypothesis range_map_perm : ∀ tmp, range_map tmp ≡ₚ map_to_list tmp.
Hypothesis interleave_perm :
  ∀ (A : Type) (chans : list (list A)), interleave A chans ≡ₚ concat chans.

Implicit Types (m : ConcurrentMap K V) (k key : K) (v value : V) (N : Z).

Abbreviation exec' := (exec range_map interleave error json_Marshal json_Unmarshal).
Abbreviation exec_all' := (exec_all range_map interleave error json_Marshal json_Unmarshal).
Abbreviation run' := (run range_map interleave error json_Marshal json_Unmarshal).
Abbreviation writes' := (writes error json_Unmarshal).
Abbreviation zero_map' := (zero_map (K:=K) (V:=V)).
Abbreviation bindings m :=
  (concat ((λ shard : ConcurrentMapShared K V, range_map (items shard)) <$> shards m)).

Lemma uint_small z : (0 ≤ z < 2 ^ 64)%Z → uint z = z.
Proof. intros Hz. unfold uint. by apply Z.mod_small. Qed.

Lemma route_lt N (f : K → Z) k :
  (0 < N < 2 ^ 63)%Z → route N f k < Z.to_nat N.
Proof.
  intros HN. unfold route. rewrite (uint_small N) by lia.
  assert (0 ≤ uint (uint32 (f k)) mod N < N)%Z by (apply Z.mod_pos_bound; lia).
  lia.
Qed.

Lemma GetShard_route N m f k :
  initialized N m → sharding m = Some f → GetShard N m k = Ok (route N f k).
Proof.
  intros [HN Hlen _ _] Hf. unfold GetShard. rewrite Hf.
  rewrite (uint_small N) by lia.
  destruct (decide (N = 0)%Z) as [->|_]; [lia|].
  pose proof (route_lt N f k HN) as Hlt. unfold route in Hlt.
  rewrite (uint_small N) in Hlt by lia.
  destruct (decide _) as [_|Hge]; [|lia].
  unfold route. by rewrite (uint_small N) by lia.
Qed.

Lemma shard_routed N m f k :
  initialized N m → sharding m = Some f →
  ∃ s, shards m !! route N f k = Some s.
Proof.
  intros [HN Hlen _ _] Hf. apply lookup_lt_is_Some_2.
  rewrite Hlen. by apply route_lt.
Qed.

Lemma deref_Some m p s : shards m !! p = Some s → deref m p = Ok s.
Proof. intros Hs. unfold deref. by rewrite Hs. Qed.

Lemma entry_routed N m f k s :
  sharding m = Some f → shards m !! route N f k = Some s →
  entry N m k = items s !! k.
Proof. intros Hf Hs. unfold entry. rewrite Hf. simpl. by rewrite Hs. Qed.

Lemma comma_ok_found (its : gmap K V) k : comma_ok its k = found (its !! k).
Proof. unfold comma_ok, found. by destruct (its !! k). Qed.

Lemma found_inj (o1 o2 : option V) : found o1 = found o2 → o1 = o2 ∨ (∃ v, o1 = Some v) ∧ (∃ v, o2 = Some v).
Proof. destruct o1, o2; simpl; intros; eauto; try discriminate. Qed.

(** A write through the pointer [GetShard] returns keeps the map
    initialized when it only touches the binding of the routed key. *)
Lemma store_items_initialized N m f k (g : gmap K V → gmap K V) :
  initialized N m → sharding m = Some f →
  (∀ its k', k' ≠ k → g its !! k' = its !! k') →
  initialized N (store_items m (route N f k) g).
Proof.
  intros [HN Hlen Hsh Hr] Hf Hg. split; simpl; auto.
  - by rewrite length_alter.
  - intros f' i s k' Hf' Hs Hk'. rewrite Hf in Hf'. simplify_eq.
    destruct (decide (route N f' k = i)) as [<-|Hne].
    + rewrite list_lookup_alter_eq in Hs.
      destruct (shards m !! route N f' k) as [s0|] eqn:Hs0; simplify_eq/=.
      destruct (decide (k' = k)) as [->|Hk]; [done|].
      rewrite Hg in Hk' by done. by eapply Hr.
    + rewrite list_lookup_alter_ne in Hs by done. by eapply Hr.
Qed.

Lemma store_items_entry N m f k s (g : gmap K V → gmap K V) k' :
  sharding m = Some f → shards m !! route N f k = Some s →
  (∀ its k', k' ≠ k → g its !! k' = its !! k') →
  entry N (store_items m (route N f k) g) k' =
    if decide (k' = k) then g (items s) !! k else entry N m k'.
Proof.
  intros Hf Hs Hg. unfold entry. simpl. rewrite Hf. simpl.
  destruct (decide (k' = k)) as [->|Hk].
  - rewrite list_lookup_alter_eq, Hs. done.
  - destruct (decide (route N f k = route N f k')) as [Heq|Hne].
    + rewrite <- Heq. rewrite list_lookup_alter_eq, Hs. simpl. by apply Hg.
    + by rewrite list_lookup_alter_ne.
Qed.

(** The shard a key of an initialized map leads to. *)
Lemma initialized_shard N m k :
  initialized N m →
  ∃ f s, sharding m = Some f ∧ shards m !! route N f k = Some s ∧
         GetShard N m k = Ok (route N f k) ∧ deref m (route N f k) = Ok s ∧
         entry N m k = items s !! k.
Proof.
  intros Hi. destruct (init_sharding _ _ Hi) as [f Hf].
  destruct (shard_routed N m f k Hi Hf) as [s Hs].
  exists f, s. split_and!; [done|done|..].
  - by apply GetShard_route.
  - by apply deref_Some.
  - by eapply entry_routed.
Qed.

Ltac with_shard Hi k :=
  let f := fresh "f" in let s := fresh "s" in
  let Hf := fresh "Hf" in let Hs := fresh "Hs" in
  let Hg := fresh "Hg" in let Hd := fresh "Hd" in let He := fresh "He" in
  destruct (initialized_shard _ _ k Hi) as (f & s & Hf & Hs & Hg & Hd & He).

Lemma Get_spec N m k :
  initialized N m → Get N m k = Ok (found (entry N m k)).
Proof.
  intros Hi. with_shard Hi k. unfold Get. rewrite Hg. simpl. rewrite Hd. simpl.
  by rewrite comma_ok_found, He.
Qed.

Lemma Has_spec N m k :
  initialized N m → Has N m k = Ok (found (entry N m k)).2.
Proof.
  intros Hi. with_shard Hi k. unfold Has. rewrite Hg. simpl. rewrite Hd. simpl.
  rewrite comma_ok_found, He. by destruct (items s !! k).
Qed.

Lemma Set_spec N m k v :
  initialized N m →
  ∃ m', Set_ N m k v = Ok m' ∧ initialized N m' ∧
        ∀ k', entry N m' k' = if decide (k' = k) then Some v else entry N m k'.
Proof.
  intros Hi. with_shard Hi k. unfold Set_. rewrite Hg. simpl.
  eexists. split; [done|]. split.
  - apply store_items_initialized; auto. intros. by apply lookup_insert_ne.
  - intros k'. erewrite store_items_entry by (eauto; intros; by apply lookup_insert_ne).
    by rewrite lookup_insert_eq.
Qed.

Lemma Remove_spec N m k :
  initialized N m →
  ∃ m', Remove N m k = Ok m' ∧ initialized N m' ∧
        ∀ k', entry N m' k' = if decide (k' = k) then None else entry N m k'.
Proof.
  intros Hi. with_shard Hi k. unfold Remove. rewrite Hg. simpl.
  eexists. split; [done|]. split.
  - apply store_items_initialized; auto. intros. by apply lookup_delete_ne.
  - intros k'. erewrite store_items_entry by (eauto; intros; by apply lookup_delete_ne).
    by rewrite lookup_delete_eq.
Qed.

(** The callback mutators and [Pop], in terms of [Set_] and [Remove]. *)
Lemma Upsert_unfold N m k v cb :
  initialized N m →
  Upsert N m k v cb =
    (let res := cb (found (entry N m k)).2 (found (entry N m k)).1 v in
     m' ← Set_ N m k res; Ok (m', res)).
Proof.
  intros Hi. with_shard Hi k. unfold Upsert, Set_. rewrite Hg. simpl. rewrite Hd. simpl.
  rewrite comma_ok_found, He. by destruct (found (items s !! k)).
Qed.

Lemma SetIfAbsent_unfold N m k v :
  initialized N m →
  SetIfAbsent N m k v =
    match entry N m k with
    | None => m' ← Set_ N m k v; Ok (m', true)
    | Some _ => Ok (m, false)
    end.
Proof.
  intros Hi. with_shard Hi k. unfold SetIfAbsent, Set_. rewrite Hg. simpl. rewrite Hd. simpl.
  rewrite comma_ok_found, He. by destruct (items s !! k).
Qed.

Lemma RemoveCb_unfold N m k cb :
  initialized N m →
  RemoveCb N m k cb =
    (let remove := cb k (found (entry N m k)).1 (found (entry N m k)).2 in
     if remove && (found (entry N m k)).2
     then m' ← Remove N m k; Ok (m', remove)
     else Ok (m, remove)).
Proof.
  intros Hi. with_shard Hi k. unfold RemoveCb, Remove. rewrite Hg. simpl. rewrite Hd. simpl.
  rewrite comma_ok_found, He. destruct (found (items s !! k)) as [v0 ok]. simpl.
  by destruct (cb k v0 ok && ok).
Qed.

Lemma Pop_unfold N m k :
  initialized N m →
  Pop N m k = (m' ← Remove N m k; Ok (m', found (entry N m k))).
Proof.
  intros Hi. with_shard Hi k. unfold Pop, Remove. rewrite Hg. simpl. rewrite Hd. simpl.
  rewrite comma_ok_found, He. by destruct (found (items s !! k)).
Qed.

(** *** Assignments in sequence *)

Lemma bind_of_cons (kv : K * V) l k d :
  bind_of (kv :: l) k d = bind_of l k (if decide (kv.1 = k) then Some kv.2 else d).
Proof. reflexivity. Qed.

Lemma bind_of_notin (l : list (K * V)) k d : k ∉ l.*1 → bind_of l k d = d.
Proof.
  revert d. induction l as [|[k1 v1] l IH]; intros d Hk; [done|].
  rewrite bind_of_cons. simpl.
  apply not_elem_of_cons in Hk as [Hne Hk]. simpl in Hne.
  destruct (decide (k1 = k)); [congruence|]. by apply IH.
Qed.

Lemma bind_of_Some (l : list (K * V)) k d v :
  (∀ v1 v2, (k, v1) ∈ l → (k, v2) ∈ l → v1 = v2) →
  bind_of l k d = Some v ↔ (k, v) ∈ l ∨ ((k ∉ l.*1) ∧ d = Some v).
Proof.
  revert d. induction l as [|[k1 v1] l IH]; intros d Hfun.
  - unfold bind_of. simpl. split.
    + intros ->. right. split; [apply not_elem_of_nil|done].
    + intros [Hin|[_ ?]]; [by apply elem_of_nil in Hin|done].
  - rewrite bind_of_cons. simpl. rewrite IH; last first.
    { intros v2 v3 H2 H3. apply Hfun; by apply list_elem_of_further. }
    destruct (decide (k1 = k)) as [->|Hne].
    + split.
      * intros [Hin|[Hk Hv]]; [left; by apply list_elem_of_further|].
        left. simplify_eq. apply list_elem_of_here.
      * intros [Hin|[Hk _]].
        -- apply elem_of_cons in Hin as [Heq|Hin]; [|by left].
           assert (v = v1) as -> by congruence.
           destruct (decide (k ∈ l.*1)) as [Hk|Hk]; [|by right].
           left. apply list_elem_of_fmap in Hk as [[k2 v2] [-> Hin]]. simpl.
           rewrite (Hfun v1 v2); [done|apply list_elem_of_here|by apply list_elem_of_further].
        -- exfalso. apply Hk. simpl. apply list_elem_of_here.
    + split.
      * intros [Hin|[Hk Hv]]; [left; by apply list_elem_of_further|].
        right. split; [|done]. simpl. apply not_elem_of_cons. by split.
      * intros [Hin|[Hk Hv]].
        -- apply elem_of_cons in Hin as [Heq|Hin]; [congruence|by left].
        -- right. split; [|done]. simpl in Hk. by apply not_elem_of_cons in Hk as [_ ?].
Qed.

Lemma bind_of_elem (l : list (K * V)) k (o : option V) :
  (∀ v, (k, v) ∈ l ↔ o = Some v) → bind_of l k None = o.
Proof.
  intros Hl.
  assert (Hfun : ∀ v1 v2, (k, v1) ∈ l → (k, v2) ∈ l → v1 = v2).
  { intros v1 v2 H1 H2. apply Hl in H1, H2. congruence. }
  destruct (bind_of l k None) as [v|] eqn:Hb.
  - apply bind_of_Some in Hb as [Hin|[_ ?]]; [|done..]. symmetry. by apply Hl.
  - destruct o as [v|]; [|done].
    assert (bind_of l k None = Some v) as Hv; [|congruence].
    apply bind_of_Some; [done|]. left. by apply Hl.
Qed.

Lemma range_map_elem (tmp : gmap K V) k v :
  (k, v) ∈ range_map tmp ↔ tmp !! k = Some v.
Proof. rewrite range_map_perm. apply elem_of_map_to_list. Qed.

Lemma bind_of_range_map (tmp : gmap K V) k :
  bind_of (range_map tmp) k None = tmp !! k.
Proof. apply bind_of_elem. intros v. apply range_map_elem. Qed.

Lemma collect_lookup (ch : list (Tuple K V)) k :
  collect ch !! k = bind_of ((λ t, (Key t, Val t)) <$> ch) k None.
Proof.
  unfold collect, bind_of.
  change (@None V) with ((∅ : gmap K V) !! k).
  generalize (∅ : gmap K V). induction ch as [|t ch IH]; intros acc; [done|].
  simpl. rewrite IH. by rewrite lookup_insert.
Qed.

Lemma elem_of_concat {A} (ls : list (list A)) (x : A) :
  x ∈ concat ls ↔ ∃ l, l ∈ ls ∧ x ∈ l.
Proof.
  induction ls as [|l ls IH]; simpl.
  - split; [intros Hx; by apply elem_of_nil in Hx|].
    intros (l & Hl & _). by apply elem_of_nil in Hl.
  - rewrite elem_of_app, IH. split.
    + intros [Hx|(l' & Hl' & Hx)].
      * exists l. split; [apply list_elem_of_here|done].
      * exists l'. split; [by apply list_elem_of_further|done].
    + intros (l' & Hl' & Hx). apply elem_of_cons in Hl' as [->|Hl']; [by left|].
      right. by exists l'.
Qed.

(** *** Loops of [Set] and [Remove] *)

Lemma fold_Set_spec N (l : list (K * V)) m :
  initialized N m →
  ∃ m', foldl (λ r kv, m' ← r; Set_ N m' kv.1 kv.2) (Ok m) l = Ok m' ∧
        initialized N m' ∧ ∀ k, entry N m' k = bind_of l k (entry N m k).
Proof.
  revert m. induction l as [|[k1 v1] l IH]; intros m Hi.
  - exists m. by split_and!.
  - destruct (Set_spec N m k1 v1 Hi) as (m1 & HS & Hi1 & He1).
    destruct (IH m1 Hi1) as (m' & Hf & Hi' & He').
    exists m'. split_and!; [simpl; by rewrite HS|done|].
    intros k. rewrite He', He1, bind_of_cons. simpl.
    destruct (decide (k = k1)), (decide (k1 = k)); congruence.
Qed.

Lemma fold_Remove_spec N (ch : list (Tuple K V)) m :
  initialized N m →
  ∃ m', foldl (λ r item, m' ← r; Remove N m' (Key item)) (Ok m) ch = Ok m' ∧
        initialized N m' ∧
        ∀ k, entry N m' k = if decide (k ∈ Key <$> ch) then None else entry N m k.
Proof.
  revert m. induction ch as [|t ch IH]; intros m Hi.
  - exists m. split_and!; [done|done|]. intros k.
    destruct (decide _) as [Hk|]; [by apply elem_of_nil in Hk|done].
  - destruct (Remove_spec N m (Key t) Hi) as (m1 & HR & Hi1 & He1).
    destruct (IH m1 Hi1) as (m' & Hf & Hi' & He').
    exists m'. split_and!; [simpl; by rewrite HR|done|].
    intros k. rewrite He', He1. rewrite fmap_cons.
    destruct (decide (k ∈ Key <$> ch)) as [Hk|Hk].
    + rewrite decide_True; [done|]. by apply list_elem_of_further.
    + destruct (decide (k = Key t)) as [->|Hne].
      * rewrite decide_True; [done|]. apply list_elem_of_here.
      * rewrite decide_False; [done|]. apply not_elem_of_cons. by split.
Qed.

(** *** Bulk reads *)

Lemma Count_loop_ok m (n i : nat) (count : Z) :
  i + n ≤ length (shards m) → ∃ r, Count_loop m n i count = Ok r.
Proof.
  revert i count. induction n as [|n IH]; intros i count Hle; simpl; [by eexists|].
  destruct (lookup_lt_is_Some_2 (shards m) i) as [s Hs]; [lia|].
  rewrite (deref_Some _ _ _ Hs). simpl. apply IH. lia.
Qed.

Lemma Count_ok N m : initialized N m → ∃ r, Count N m = Ok r.
Proof. intros [_ Hlen _ _]. apply Count_loop_ok. lia. Qed.

Lemma snapshot_spec N m :
  initialized N m →
  snapshot range_map N m =
    Ok ((λ shard, (λ kv, mkTuple kv.1 kv.2) <$> range_map (items shard)) <$> shards m).
Proof.
  intros [HN Hlen _ _]. unfold snapshot.
  destruct (decide (length (shards m) = 0)); [lia|].
  destruct (decide (N < 0)%Z); [lia|].
  destruct (decide (Z.to_nat N < length (shards m))); [lia|].
  destruct (decide (length (shards m) < Z.to_nat N)); [lia|]. done.
Qed.

(** In an initialized map the shards hold a binding exactly when
    [entry] reads it. *)
Lemma entry_Some N m k v :
  initialized N m →
  entry N m k = Some v ↔ ∃ s, s ∈ shards m ∧ items s !! k = Some v.
Proof.
  intros Hi. with_shard Hi k. rewrite He. split.
  - intros Hv. exists s. split; [|done]. apply list_elem_of_lookup. eauto.
  - intros (s' & Hin & Hv). apply list_elem_of_lookup in Hin as [i Hs'].
    assert (route N f k = i) as Hr by (eapply (init_routed _ _ Hi); eauto).
    subst i. congruence.
Qed.

Lemma IterBuffered_spec N m :
  initialized N m →
  ∃ ch, IterBuffered range_map interleave N m = Ok ch ∧
        ∀ k, collect ch !! k = entry N m k.
Proof.
  intros Hi. unfold IterBuffered. rewrite snapshot_spec by done. simpl.
  eexists. split; [done|]. intros k. rewrite collect_lookup.
  apply bind_of_elem. intros v. rewrite entry_Some by done.
  rewrite list_elem_of_fmap. unfold fanIn. split.
  - intros ([k' v'] & Heq & Hin). simplify_eq/=.
    rewrite interleave_perm in Hin. apply elem_of_concat in Hin as (c & Hc & Hin).
    apply list_elem_of_fmap in Hc as (s & -> & Hs).
    apply list_elem_of_fmap in Hin as ([k2 v2] & Heq & Hin). simplify_eq/=.
    exists s. split; [done|]. by apply range_map_elem.
  - intros (s & Hs & Hv). exists (mkTuple k v). split; [done|].
    rewrite interleave_perm. apply elem_of_concat.
    eexists. split; [apply list_elem_of_fmap; eauto|].
    apply list_elem_of_fmap. exists (k, v). split; [done|]. by apply range_map_elem.
Qed.

Lemma Iter_IterBuffered N m :
  Iter range_map interleave N m = IterBuffered range_map interleave N m.
Proof. reflexivity. Qed.

Lemma Items_spec N m :
  initialized N m →
  ∃ tmp, Items range_map interleave N m = Ok tmp ∧ ∀ k, tmp !! k = entry N m k.
Proof.
  intros Hi. destruct (IterBuffered_spec N m Hi) as (ch & Hch & He).
  exists (collect ch). unfold Items. by rewrite Hch.
Qed.

Lemma MarshalJSON_spec N m :
  initialized N m →
  ∃ tmp, MarshalJSON range_map interleave error json_Marshal N m = Ok (json_Marshal tmp) ∧
         Items range_map interleave N m = Ok tmp.
Proof.
  intros Hi. destruct (IterBuffered_spec N m Hi) as (ch & Hch & He).
  exists (collect ch). unfold MarshalJSON, Items. by rewrite Hch.
Qed.

Lemma Keys_ok N m :
  initialized N m → ∃ keys, Keys range_map interleave N m = Ok keys.
Proof.
  intros Hi. destruct (Count_ok N m Hi) as [r Hr]. destruct Hi as [HN Hlen _ _].
  unfold Keys. rewrite Hr. simpl.
  destruct (decide (N < 0)%Z); [lia|].
  destruct (decide (Z.to_nat N < length (shards m))); [lia|].
  destruct (decide (length (shards m) < Z.to_nat N)); [lia|]. by eexists.
Qed.

(** *** Bulk writes *)

Lemma MSet_spec N m (data : gmap K V) :
  initialized N m →
  ∃ m', MSet range_map N m data = Ok m' ∧ initialized N m' ∧
        ∀ k, entry N m' k = match data !! k with Some v => Some v | None => entry N m k end.
Proof.
  intros Hi. destruct (fold_Set_spec N (range_map data) m Hi) as (m' & Hf & Hi' & He).
  exists m'. split_and!; [done|done|]. intros k. rewrite He.
  destruct (data !! k) as [v|] eqn:Hk.
  - apply bind_of_Some.
    + intros v1 v2 H1%range_map_elem H2%range_map_elem. congruence.
    + left. by apply range_map_elem.
  - apply bind_of_notin. intros ([k' v'] & -> & Hin)%list_elem_of_fmap.
    apply range_map_elem in Hin. simpl in Hk. congruence.
Qed.

Lemma UnmarshalJSON_spec N m (b : list Byte.byte) :
  initialized N m →
  match json_Unmarshal b with
  | inr err => UnmarshalJSON range_map error json_Unmarshal N m b = Ok (m, Some err)
  | inl tmp =>
      ∃ m', UnmarshalJSON range_map error json_Unmarshal N m b = Ok (m', None) ∧
            MSet range_map N m tmp = Ok m'
  end.
Proof.
  intros Hi. unfold UnmarshalJSON. destruct (json_Unmarshal b) as [tmp|err]; [|done].
  destruct (MSet_spec N m tmp Hi) as (m' & HM & _). exists m'. split; [|done].
  unfold MSet in HM. by rewrite HM.
Qed.

Lemma Clear_spec N m :
  initialized N m →
  ∃ m', Clear range_map interleave N m = Ok m' ∧ initialized N m'.
Proof.
  intros Hi. destruct (IterBuffered_spec N m Hi) as (ch & Hch & _).
  destruct (fold_Remove_spec N ch m Hi) as (m' & Hf & Hi' & _).
  exists m'. unfold Clear. rewrite Hch. by split.
Qed.

(** *** Every call on an initialized map returns *)

Lemma exec_ok N m (c : call K V) :
  initialized N m →
  ∃ m' r, exec' N m c = Ok (m', r) ∧ initialized N m' ∧
          ∀ k, ¬ writes' c k → entry N m' k = entry N m k.
Proof.
  intros Hi. destruct c as [key value|data|key value cb|key value|key| |key|key
    |key cb|key| | | | | | | |b]; simpl.
  - destruct (Set_spec N m key value Hi) as (m' & -> & Hi' & He).
    do 2 eexists. split_and!; [done..|]. intros k Hk. rewrite He.
    destruct (decide (k = key)); congruence.
  - destruct (MSet_spec N m data Hi) as (m' & -> & Hi' & He).
    do 2 eexists. split_and!; [done..|]. intros k Hk. rewrite He.
    destruct (data !! k) eqn:Hd; [|done]. exfalso. apply Hk. by eexists.
  - rewrite Upsert_unfold by done. simpl.
    destruct (Set_spec N m key (cb (found (entry N m key)).2 (found (entry N m key)).1 value) Hi)
      as (m' & -> & Hi' & He).
    do 2 eexists. split_and!; [done..|]. intros k Hk. rewrite He.
    destruct (decide (k = key)); congruence.
  - rewrite SetIfAbsent_unfold by done. destruct (entry N m key).
    + do 2 eexists. by split_and!.
    + destruct (Set_spec N m key value Hi) as (m' & -> & Hi' & He).
      do 2 eexists. split_and!; [done..|]. intros k Hk. rewrite He.
      destruct (decide (k = key)); congruence.
  - rewrite Get_spec by done. simpl. destruct (found (entry N m key)).
    do 2 eexists. by split_and!.
  - destruct (Count_ok N m Hi) as [r ->]. do 2 eexists. by split_and!.
  - rewrite Has_spec by done. do 2 eexists. by split_and!.
  - destruct (Remove_spec N m key Hi) as (m' & -> & Hi' & He).
    do 2 eexists. split_and!; [done..|]. intros k Hk. rewrite He.
    destruct (decide (k = key)); congruence.
  - rewrite RemoveCb_unfold by done. simpl. destruct (_ && _).
    + destruct (Remove_spec N m key Hi) as (m' & -> & Hi' & He).
      do 2 eexists. split_and!; [done..|]. intros k Hk. rewrite He.
      destruct (decide (k = key)); congruence.
    + do 2 eexists. by split_and!.
  - rewrite Pop_unfold by done.
    destruct (Remove_spec N m key Hi) as (m' & -> & Hi' & He). simpl.
    destruct (found (entry N m key)).
    do 2 eexists. split_and!; [done..|]. intros k Hk. rewrite He.
    destruct (decide (k = key)); congruence.
  - unfold IsEmpty. destruct (Count_ok N m Hi) as [r ->]. do 2 eexists. by split_and!.
  - rewrite Iter_IterBuffered. destruct (IterBuffered_spec N m Hi) as (ch & -> & _).
    do 2 eexists. by split_and!.
  - destruct (IterBuffered_spec N m Hi) as (ch & -> & _). do 2 eexists. by split_and!.
  - destruct (Clear_spec N m Hi) as (m' & -> & Hi'). do 2 eexists. by split_and!.
  - destruct (Items_spec N m Hi) as (tmp & -> & _). do 2 eexists. by split_and!.
  - destruct (Keys_ok N m Hi) as (keys & ->). do 2 eexists. by split_and!.
  - destruct (MarshalJSON_spec N m Hi) as (tmp & -> & _). do 2 eexists. by split_and!.
  - pose proof (UnmarshalJSON_spec N m b Hi) as HU.
    destruct (json_Unmarshal b) as [tmp|err].
    + destruct HU as (m' & -> & HM).
      destruct (MSet_spec N m tmp Hi) as (m2 & HM2 & Hi' & He).
      assert (m2 = m') as -> by congruence.
      do 2 eexists. split_and!; [done..|]. intros k Hk. rewrite He.
      destruct (tmp !! k) eqn:Hd; [|done]. exfalso. apply Hk. by eexists.
    + rewrite HU. do 2 eexists. by split_and!.
Qed.

Lemma exec_all_ok N m (cs : list (call K V)) k :
  initialized N m →
  (∀ c, c ∈ cs → ¬ writes' c k) →
  ∃ m' rs, exec_all' N m cs = Ok (m', rs) ∧ initialized N m' ∧
           entry N m' k = entry N m k.
Proof.
  revert m. induction cs as [|c cs IH]; intros m Hi Hw; simpl.
  - do 2 eexists. by split_and!.
  - destruct (exec_ok N m c Hi) as (m1 & r & -> & Hi1 & He1). simpl.
    destruct (IH m1 Hi1) as (m2 & rs & -> & Hi2 & He2).
    { intros c' Hc'. apply Hw. by apply list_elem_of_further. }
    do 2 eexists. split_and!; [done..|]. rewrite He2. apply He1, Hw.
    apply list_elem_of_here.
Qed.

(** *** Construction *)

Lemma create_initialized N (f : K → Z) :
  (0 < N < 2 ^ 63)%Z →
  ∃ m, create N f = Ok m ∧ initialized N m ∧ sharding m = Some f ∧
       ∀ k, entry N m k = None.
Proof.
  intros HN. unfold create. destruct (decide (N < 0)%Z); [lia|].
  eexists. split; [done|].
  assert (∀ i s, replicate (Z.to_nat N) (mkShared (K:=K) (V:=V) ∅) !! i = Some s →
                 ∀ k, items s !! k = None) as Hempty.
  { intros i s [-> _]%lookup_replicate k. apply lookup_empty. }
  split_and!; [|done|].
  - split; simpl; [done|by rewrite length_replicate|by eexists|].
    intros f' i s k _ Hs [v Hv]. rewrite (Hempty i s Hs) in Hv. done.
  - intros k. unfold entry. simpl.
    destruct (replicate _ _ !! _) as [s|] eqn:Hs; simpl; [|done]. by eapply Hempty.
Qed.

(** ** Single-key operations *)

(** C3: on an initialized map, [Upsert k v cb] computes
    [res = cb found existing v] from the prior binding [(existing, found)]
    of [k] (the zero value if absent), stores [res] under [k] and returns
    it; upserting 1 under "x" twice with the adding callback, from a
    fresh map, leaves 2 under "x". *)
Theorem Upsert_combines N m k v (cb : bool → V → V → V) :
  initialized N m →
  (∃ existing ok m',
     Get N m k = Ok (existing, ok) ∧
     Upsert N m k v cb = Ok (m', cb ok existing v) ∧
     Get N m' k = Ok (cb ok existing v, true) ∧
     initialized N m') ∧
  (ma ← New (V:=Z) 32;
   '(mb, r1) ← Upsert 32 ma "x"%string 1%Z add_cb;
   '(mc, r2) ← Upsert 32 mb "x"%string 1%Z add_cb;
   g ← Get 32 mc "x"%string;
   Ok (r1, r2, g)) = Ok (1%Z, 2%Z, (2%Z, true)).
Proof.
  intros Hi. split.
  - rewrite Upsert_unfold, Get_spec by done. simpl.
    destruct (found (entry N m k)) as [existing ok]. simpl.
    destruct (Set_spec N m k (cb ok existing v) Hi) as (m' & -> & Hi' & He).
    exists existing, ok, m'. split_and!; [done..| |done].
    rewrite Get_spec, He by done. by rewrite decide_True.
  - vm_compute. reflexivity.
Qed.

(** C4: on an initialized map, [Get k] after [Set k v] returns
    [(v, true)], and still does after any further calls none of which
    overwrites or removes [k]; [Get k] after [Remove k] returns
    [(_, false)]. *)
Theorem Set_Get_until_written N m k v (cs : list (call K V)) :
  initialized N m →
  (∀ c, c ∈ cs → ¬ writes' c k) →
  (∃ m1 m2 rs,
     Set_ N m k v = Ok m1 ∧ Get N m1 k = Ok (v, true) ∧
     exec_all' N m1 cs = Ok (m2, rs) ∧ Get N m2 k = Ok (v, true)) ∧
  (∃ m3, Remove N m k = Ok m3 ∧ Get N m3 k = Ok (zero_value, false)).
Proof.
  intros Hi Hw. split.
  - destruct (Set_spec N m k v Hi) as (m1 & HS & Hi1 & He1).
    destruct (exec_all_ok N m1 cs k Hi1 Hw) as (m2 & rs & Hex & Hi2 & He2).
    exists m1, m2, rs. split_and!; [done| |done|].
    + rewrite Get_spec, He1 by done. by rewrite decide_True.
    + rewrite Get_spec, He2, He1 by done. by rewrite decide_True.
  - destruct (Remove_spec N m k Hi) as (m3 & HR & Hi3 & He3).
    exists m3. split; [done|]. rewrite Get_spec, He3 by done. by rewrite decide_True.
Qed.

(** C5: on an initialized map, [SetIfAbsent k v] returns true and
    stores [v] under [k] exactly when [k] was absent; when [k] was
    present it returns false and leaves the map, and so the value under
    [k], as it was. *)
Theorem SetIfAbsent_iff_absent N m k v :
  initialized N m →
  ∃ old present m',
    Get N m k = Ok (old, present) ∧
    SetIfAbsent N m k v = Ok (m', negb present) ∧
    initialized N m' ∧
    (present = false → Set_ N m k v = Ok m' ∧ Get N m' k = Ok (v, true)) ∧
    (present = true → m' = m ∧ Get N m' k = Ok (old, true)).
Proof.
  intros Hi. rewrite SetIfAbsent_unfold, Get_spec by done.
  destruct (entry N m k) as [old|] eqn:Hk; simpl.
  - exists old, true, m. split_and!; [done..| |]; intros; [done|].
    split; [done|]. by rewrite Get_spec, Hk.
  - destruct (Set_spec N m k v Hi) as (m' & -> & Hi' & He).
    exists zero_value, false, m'. split_and!; [done..| |]; intros; [|done].
    split; [done|]. rewrite Get_spec, He by done. by rewrite decide_True.
Qed.

(** C6: on an initialized map, [RemoveCb k cb] computes
    [remove = cb k value found] on the current binding of [k] (the zero
    value if absent), deletes [k] exactly when [remove && found], and
    returns [remove], also when [k] was absent. *)
Theorem RemoveCb_removes_iff N m k (cb : K → V → bool → bool) :
  initialized N m →
  ∃ value present m',
    Get N m k = Ok (value, present) ∧
    RemoveCb N m k cb = Ok (m', cb k value present) ∧
    initialized N m' ∧
    (cb k value present && present = true →
       Remove N m k = Ok m' ∧ Get N m' k = Ok (zero_value, false)) ∧
    (cb k value present && present = false → m' = m).
Proof.
  intros Hi. rewrite RemoveCb_unfold, Get_spec by done.
  destruct (found (entry N m k)) as [value present]. cbv zeta. cbn [fst snd].
  destruct (cb k value present && present) eqn:Hb.
  - destruct (Remove_spec N m k Hi) as (m' & -> & Hi' & He).
    exists value, present, m'. split_and!; [done..| |]; intros; [|congruence].
    split; [done|]. rewrite Get_spec, He by done. by rewrite decide_True.
  - exists value, present, m. split_and!; [done..| |]; intros; [congruence|done].
Qed.

(** C10: on an initialized map, for [k' ≠ k], none of [Set], [Remove],
    [Pop], [SetIfAbsent] and [Upsert] on [k] changes what [Get k']
    returns. *)
Theorem other_keys_unchanged N m k k' v (cb : bool → V → V → V) :
  initialized N m →
  k' ≠ k →
  (∃ m', Set_ N m k v = Ok m' ∧ Get N m' k' = Get N m k') ∧
  (∃ m', Remove N m k = Ok m' ∧ Get N m' k' = Get N m k') ∧
  (∃ m' r, Pop N m k = Ok (m', r) ∧ Get N m' k' = Get N m k') ∧
  (∃ m' b, SetIfAbsent N m k v = Ok (m', b) ∧ Get N m' k' = Get N m k') ∧
  (∃ m' res, Upsert N m k v cb = Ok (m', res) ∧ Get N m' k' = Get N m k').
Proof.
  intros Hi Hne.
  assert (∀ c, (∀ k0, ¬ writes' c k0 ↔ k0 ≠ k) →
    ∃ m' r, exec' N m c = Ok (m', r) ∧ Get N m' k' = Get N m k') as Hframe.
  { intros c Hc. destruct (exec_ok N m c Hi) as (m' & r & Hex & Hi' & He).
    exists m', r. split; [done|]. rewrite !Get_spec by done.
    rewrite He; [done|]. by apply Hc. }
  split_and!.
  - destruct (Hframe (CallSet k v)) as (m' & r & Hex & HG).
    { intros k0. simpl. split; intros ? ?; congruence. }
    simpl in Hex. destruct (Set_ N m k v) as [m1|]; simplify_eq/=. eauto.
  - destruct (Hframe (CallRemove k)) as (m' & r & Hex & HG).
    { intros k0. simpl. split; intros ? ?; congruence. }
    simpl in Hex. destruct (Remove N m k) as [m1|]; simplify_eq/=. eauto.
  - destruct (Hframe (CallPop k)) as (m' & r & Hex & HG).
    { intros k0. simpl. split; intros ? ?; congruence. }
    simpl in Hex. destruct (Pop N m k) as [[m1 [v1 ok1]]|]; simplify_eq/=. eauto.
  - destruct (Hframe (CallSetIfAbsent k v)) as (m' & r & Hex & HG).
    { intros k0. simpl. split; intros ? ?; congruence. }
    simpl in Hex. destruct (SetIfAbsent N m k v) as [[m1 b1]|]; simplify_eq/=. eauto.
  - destruct (Hframe (CallUpsert k v cb)) as (m' & r & Hex & HG).
    { intros k0. simpl. split; intros ? ?; congruence. }
    simpl in Hex. destruct (Upsert N m k v cb) as [[m1 r1]|]; simplify_eq/=. eauto.
Qed.

(** ** The package variable *)

Lemma run_restored N m (sc0 : Z) (prog : list (step K V)) :
  initialized N m →
  calls_at N sc0 prog →
  ∃ sc' m' rs, run' sc0 m prog = Ok (sc', m', rs) ∧
               exec_all' N m (calls_of prog) = Ok (m', rs) ∧ initialized N m'.
Proof.
  revert sc0 m. induction prog as [|[c|c] prog IH]; intros sc0 m Hi Hat; simpl in *.
  - do 3 eexists. by split_and!.
  - by apply IH.
  - destruct Hat as [-> Hat].
    destruct (exec_ok N m c Hi) as (m1 & r & -> & Hi1 & _). simpl.
    destruct (IH N m1 Hi1 Hat) as (sc' & m' & rs & -> & -> & Hi'). simpl.
    do 3 eexists. by split_and!.
Qed.

(** C1 (amended): the methods read [SHARD_COUNT] when they are called,
    not at construction.  On a map built under shard count [N], a
    program that assigns [SHARD_COUNT] between calls but has it equal to
    [N] at every call returns what the same calls return without the
    assignments, and leaves the same map; under another value [c] of
    [SHARD_COUNT], [GetShard] leads to shard [hash mod c] and faults when
    that index is not below [N]. *)
Theorem SHARD_COUNT_read_at_call N m (sc0 : Z) (prog : list (step K V)) :
  initialized N m →
  calls_at N sc0 prog →
  (∃ sc' m' rs, run' sc0 m prog = Ok (sc', m', rs) ∧
                exec_all' N m (calls_of prog) = Ok (m', rs) ∧ initialized N m') ∧
  (∀ (c : Z) (f : K → Z) k,
     (0 < c < 2 ^ 63)%Z → sharding m = Some f →
     GetShard c m k =
       if decide (route c f k < Z.to_nat N) then Ok (route c f k)
       else Fault IndexOutOfRange).
Proof.
  intros Hi Hat. split; [by apply run_restored|].
  intros c f k Hc Hf. unfold GetShard, route. rewrite Hf.
  rewrite (uint_small c) by lia.
  destruct (decide (c = 0)%Z); [lia|].
  by rewrite (init_shards _ _ Hi).
Qed.

(** ** The zero value of the map *)

(** C2 (amended): on the zero value of [ConcurrentMap], the operations
    that take a snapshot ([Iter], [IterBuffered], [Items], [Clear],
    [MarshalJSON]) stop with the panic that says the map is not
    initialized; the keyed operations stop at the call of the nil
    sharding function; [Count] and [Keys] stop at the index into the
    empty slice when [SHARD_COUNT] is positive; [IterCb] returns without
    a call of its callback. *)
Theorem zero_map_faults (SHARD_COUNT : Z) k v (cb : bool → V → V → V)
    (rcb : K → V → bool → bool) (S : Type) (fn : K → V → S → S) (s0 : S) :
  (0 < SHARD_COUNT)%Z →
  (Iter range_map interleave SHARD_COUNT zero_map' = Fault NotInitialized ∧
   IterBuffered range_map interleave SHARD_COUNT zero_map' = Fault NotInitialized ∧
   Items range_map interleave SHARD_COUNT zero_map' = Fault NotInitialized ∧
   Clear range_map interleave SHARD_COUNT zero_map' = Fault NotInitialized ∧
   MarshalJSON range_map interleave error json_Marshal SHARD_COUNT zero_map'
     = Fault NotInitialized) ∧
  (Set_ SHARD_COUNT zero_map' k v = Fault NilDereference ∧
   Get SHARD_COUNT zero_map' k = Fault NilDereference ∧
   Has SHARD_COUNT zero_map' k = Fault NilDereference ∧
   Remove SHARD_COUNT zero_map' k = Fault NilDereference ∧
   Pop SHARD_COUNT zero_map' k = Fault NilDereference ∧
   SetIfAbsent SHARD_COUNT zero_map' k v = Fault NilDereference ∧
   Upsert SHARD_COUNT zero_map' k v cb = Fault NilDereference ∧
   RemoveCb SHARD_COUNT zero_map' k rcb = Fault NilDereference) ∧
  (Count SHARD_COUNT zero_map' = Fault IndexOutOfRange ∧
   Keys range_map interleave SHARD_COUNT zero_map' = Fault IndexOutOfRange) ∧
  IterCb range_map zero_map' fn s0 = s0.
Proof.
  intros Hsc.
  assert (Count SHARD_COUNT zero_map' = Fault IndexOutOfRange) as HC.
  { unfold Count. destruct (Z.to_nat SHARD_COUNT) as [|n] eqn:Hn; [lia|]. done. }
  split_and!; try done.
  unfold Keys. by rewrite HC.
Qed.

(** ** JSON *)

(** C9: on an initialized map [UnmarshalJSON] returns, and when it
    returns a non-nil error the map it leaves is the map it was given:
    no key is set before the whole input is decoded. *)
Theorem UnmarshalJSON_error_unchanged N m (b : list Byte.byte) :
  initialized N m →
  (∃ m' err, UnmarshalJSON range_map error json_Unmarshal N m b = Ok (m', err)) ∧
  (∀ m' e, UnmarshalJSON range_map error json_Unmarshal N m b = Ok (m', Some e) →
           m' = m ∧ json_Unmarshal b = inr e ∧ ∀ k, Get N m' k = Get N m k).
Proof.
  intros Hi. pose proof (UnmarshalJSON_spec N m b Hi) as HU.
  destruct (json_Unmarshal b) as [tmp|err].
  - destruct HU as (m1 & -> & _). split; [by do 2 eexists|]. intros m' e He. done.
  - rewrite HU. split; [by do 2 eexists|]. intros m' e He. by simplify_eq.
Qed.

(** ** The map as a whole *)

(** Two initialized maps with the same sharding function and the same
    bindings are the same map. *)
Lemma initialized_ext N m1 m2 :
  initialized N m1 → initialized N m2 → sharding m1 = sharding m2 →
  (∀ k, entry N m1 k = entry N m2 k) → m1 = m2.
Proof.
  intros Hi1 Hi2 Hsh He.
  destruct (init_sharding _ _ Hi1) as [f Hf1].
  assert (sharding m2 = Some f) as Hf2 by congruence.
  assert (shards m1 = shards m2) as Heq; [|destruct m1, m2; simpl in *; congruence].
  apply list_eq. intros i.
  destruct (shards m1 !! i) as [[it1]|] eqn:Hs1.
  - destruct (lookup_lt_is_Some_2 (shards m2) i) as [[it2] Hs2].
    { apply lookup_lt_Some in Hs1.
      rewrite (init_shards _ _ Hi2). by rewrite (init_shards _ _ Hi1) in Hs1. }
    rewrite Hs2. do 2 f_equal. apply map_eq. intros k.
    destruct (decide (route N f k = i)) as [<-|Hne].
    + specialize (He k). unfold entry in He. rewrite Hf1, Hf2 in He. simpl in He.
      by rewrite Hs1, Hs2 in He.
    + destruct (it1 !! k) as [v1|] eqn:H1.
      { exfalso. apply Hne. eapply (init_routed _ _ Hi1); eauto; simpl; by eexists. }
      destruct (it2 !! k) as [v2|] eqn:H2; [|done].
      exfalso. apply Hne. eapply (init_routed _ _ Hi2); eauto; simpl; by eexists.
  - apply lookup_ge_None in Hs1. symmetry. apply lookup_ge_None.
    rewrite (init_shards _ _ Hi2). by rewrite (init_shards _ _ Hi1) in Hs1.
Qed.

Lemma NoDup_concat_indexed {A} (ls : list (list A)) :
  (∀ l, l ∈ ls → NoDup l) →
  (∀ i j l1 l2 x, ls !! i = Some l1 → ls !! j = Some l2 → x ∈ l1 → x ∈ l2 → i = j) →
  NoDup (concat ls).
Proof.
  induction ls as [|l ls IH]; intros Hnd Hdis; simpl; [constructor|].
  apply NoDup_app. split_and!.
  - apply Hnd, list_elem_of_here.
  - intros x Hx Hc. apply elem_of_concat in Hc as (l' & Hl' & Hx').
    apply list_elem_of_lookup in Hl' as [j Hj].
    by specialize (Hdis 0 (S j) l l' x eq_refl Hj Hx Hx').
  - apply IH.
    + intros l' Hl'. by apply Hnd, list_elem_of_further.
    + intros i j l1 l2 x H1 H2 Hx1 Hx2.
      specialize (Hdis (S i) (S j) l1 l2 x H1 H2 Hx1 Hx2). lia.
Qed.

Lemma bindings_elem N m k v :
  initialized N m → (k, v) ∈ bindings m ↔ entry N m k = Some v.
Proof.
  intros Hi. rewrite entry_Some by done. rewrite elem_of_concat. split.
  - intros (l & Hl & Hin). apply list_elem_of_fmap in Hl as (s & -> & Hs).
    exists s. split; [done|]. by apply range_map_elem.
  - intros (s & Hs & Hv). eexists. split; [apply list_elem_of_fmap; eauto|].
    by apply range_map_elem.
Qed.

Lemma bindings_NoDup N m : initialized N m → NoDup (bindings m).
Proof.
  intros Hi. destruct (init_sharding _ _ Hi) as [f Hf]. apply NoDup_concat_indexed.
  - intros l (s & -> & _)%list_elem_of_fmap. rewrite range_map_perm.
    apply NoDup_map_to_list.
  - intros i j l1 l2 [k v] H1 H2 Hx1 Hx2.
    apply list_lookup_fmap_Some in H1 as (s1 & -> & Hs1).
    apply list_lookup_fmap_Some in H2 as (s2 & -> & Hs2).
    apply range_map_elem in Hx1, Hx2.
    assert (route N f k = i) as <- by (eapply (init_routed _ _ Hi); eauto).
    eapply (init_routed _ _ Hi); eauto.
Qed.

Lemma bindings_perm N m (tmp : gmap K V) :
  initialized N m → (∀ k, tmp !! k = entry N m k) → bindings m ≡ₚ map_to_list tmp.
Proof.
  intros Hi Ht. apply NoDup_Permutation.
  - by eapply bindings_NoDup.
  - apply NoDup_map_to_list.
  - intros [k v]. rewrite (bindings_elem N) by done.
    rewrite elem_of_map_to_list. by rewrite Ht.
Qed.

Lemma fmap_concat {A B} (f : A → B) (ls : list (list A)) :
  f <$> concat ls = concat ((λ l : list A, f <$> l) <$> ls).
Proof. induction ls as [|l ls IH]; simpl; [done|]. by rewrite fmap_app, IH. Qed.

Lemma foldl_concat {A S} (f : S → A → S) (ls : list (list A)) (s0 : S) :
  foldl (λ s l, foldl f s l) s0 ls = foldl f s0 (concat ls).
Proof.
  revert s0. induction ls as [|l ls IH]; intros s0; simpl; [done|].
  by rewrite foldl_app, IH.
Qed.

Lemma length_concat_fmap (ls : list (ConcurrentMapShared K V)) :
  length (concat ((λ shard, range_map (items shard)) <$> ls)) =
  foldr (λ shard acc, size (items shard) + acc) 0 ls.
Proof.
  induction ls as [|s ls IH]; [done|].
  rewrite fmap_cons. cbn [concat foldr]. rewrite List.length_app, IH. f_equal.
  rewrite range_map_perm. apply length_map_to_list.
Qed.

Lemma Count_loop_sum m (n i : nat) (count : Z) :
  i + n ≤ length (shards m) →
  Count_loop m n i count =
    Ok (count + Z.of_nat (foldr (λ shard acc, size (items shard) + acc)%nat 0%nat
                            (take n (drop i (shards m)))))%Z.
Proof.
  revert i count. induction n as [|n IH]; intros i count Hle.
  - simpl. f_equal. lia.
  - destruct (lookup_lt_is_Some_2 (shards m) i) as [s Hs]; [lia|].
    cbn [Count_loop]. rewrite (deref_Some _ _ _ Hs). simpl mbind. rewrite IH by lia.
    rewrite (drop_S _ _ _ Hs). cbn [take foldr]. f_equal. lia.
Qed.

Lemma Count_bindings N m :
  initialized N m → Count N m = Ok (Z.of_nat (length (bindings m))).
Proof.
  intros Hi. unfold Count. rewrite Count_loop_sum by (rewrite (init_shards _ _ Hi); lia).
  rewrite drop_0, take_ge by (rewrite (init_shards _ _ Hi); lia).
  by rewrite length_concat_fmap.
Qed.

(** X1: on an initialized map [Count] is the number of bindings of
    [Items], that is the number of distinct keys stored. *)
Theorem Count_size_Items N m :
  initialized N m →
  ∃ tmp, Items range_map interleave N m = Ok tmp ∧
         Count N m = Ok (Z.of_nat (size tmp)).
Proof.
  intros Hi. destruct (Items_spec N m Hi) as (tmp & HI & Ht).
  exists tmp. split; [done|]. rewrite Count_bindings by done.
  pose proof (Permutation_length (bindings_perm N m tmp Hi Ht)) as Hlen.
  by rewrite Hlen, length_map_to_list.
Qed.

(** X2: on an initialized map [IsEmpty] returns true exactly when
    [Items] is the empty mapping. *)
Theorem IsEmpty_iff_no_Items N m :
  initialized N m →
  ∃ tmp b, Items range_map interleave N m = Ok tmp ∧ IsEmpty N m = Ok b ∧
           (b = true ↔ tmp = ∅).
Proof.
  intros Hi. destruct (Items_spec N m Hi) as (tmp & HI & Ht).
  exists tmp. unfold IsEmpty. rewrite Count_bindings by done. simpl.
  eexists. split_and!; [done..|].
  pose proof (Permutation_length (bindings_perm N m tmp Hi Ht)) as Hlen.
  rewrite Hlen, length_map_to_list.
  rewrite bool_decide_eq_true, <- map_size_empty_iff. lia.
Qed.

(** X3: on an initialized map [Keys] returns every key of [Items] once,
    in some order, and as many keys as [Count] counts. *)
Theorem Keys_of_Items N m :
  initialized N m →
  ∃ tmp keys, Items range_map interleave N m = Ok tmp ∧
              Keys range_map interleave N m = Ok keys ∧
              keys ≡ₚ (map_to_list tmp).*1 ∧ NoDup keys ∧
              Count N m = Ok (Z.of_nat (length keys)).
Proof.
  intros Hi. destruct (Items_spec N m Hi) as (tmp & HI & Ht).
  pose proof (bindings_perm N m tmp Hi Ht) as Hp.
  destruct (Keys_ok N m Hi) as (keys & HK). exists tmp, keys.
  assert (keys ≡ₚ (map_to_list tmp).*1) as Hkeys.
  { unfold Keys in HK. rewrite Count_bindings in HK by done. simpl in HK.
    destruct Hi as [HN Hlen _ _].
    destruct (decide (N < 0)%Z); [lia|].
    destruct (decide (Z.to_nat N < length (shards m))); [lia|].
    destruct (decide (length (shards m) < Z.to_nat N)); [lia|].
    injection HK as <-. rewrite interleave_perm, <- Hp, fmap_concat.
    by rewrite <- list_fmap_compose. }
  split_and!; [done..| |].
  - rewrite Hkeys. apply NoDup_fst_map_to_list.
  - rewrite Count_bindings by done. do 2 f_equal.
    by rewrite (Permutation_length Hkeys), (Permutation_length Hp), length_fmap.
Qed.

(** X4: on an initialized map [IterBuffered] (and [Iter]) delivers every
    binding of [Items] exactly once, in some order. *)
Theorem IterBuffered_each_binding_once N m :
  initialized N m →
  ∃ tmp ch, Items range_map interleave N m = Ok tmp ∧
            IterBuffered range_map interleave N m = Ok ch ∧
            Iter range_map interleave N m = Ok ch ∧
            (λ item, (Key item, Val item)) <$> ch ≡ₚ map_to_list tmp.
Proof.
  intros Hi. destruct (Items_spec N m Hi) as (tmp & HI & Ht).
  pose proof (bindings_perm N m tmp Hi Ht) as Hp.
  exists tmp. unfold Iter, IterBuffered. rewrite snapshot_spec by done. simpl.
  eexists. split_and!; [done..|].
  unfold fanIn. rewrite interleave_perm, <- Hp, fmap_concat, <- list_fmap_compose.
  match goal with |- concat ?l1 ≡ₚ concat ?l2 => assert (l1 = l2) as ->; [|done] end.
  apply list_fmap_ext. intros i s _. simpl.
  rewrite <- list_fmap_compose. rewrite <- (list_fmap_id (range_map (items s))) at 2.
  apply list_fmap_ext. by intros j [k v] _.
Qed.

(** X5: on an initialized map [IterCb] calls the callback on every
    binding of [Items] exactly once: it is a fold of the callback over
    the bindings in some order. *)
Theorem IterCb_each_binding_once N m :
  initialized N m →
  ∃ tmp l, Items range_map interleave N m = Ok tmp ∧ l ≡ₚ map_to_list tmp ∧
           ∀ (S : Type) (fn : K → V → S → S) (s0 : S),
             IterCb range_map m fn s0 = foldl (λ s kv, fn kv.1 kv.2 s) s0 l.
Proof.
  intros Hi. destruct (Items_spec N m Hi) as (tmp & HI & Ht).
  exists tmp, (bindings m). split_and!; [done|by eapply bindings_perm|].
  intros S fn s0. unfold IterCb.
  rewrite <- foldl_concat. by rewrite foldl_fmap.
Qed.

(** ** What the writes keep *)

Lemma Set_sharding N m k v m' : Set_ N m k v = Ok m' → sharding m' = sharding m.
Proof. unfold Set_. destruct (GetShard N m k); simpl; intros; by simplify_eq. Qed.

Lemma Remove_sharding N m k m' : Remove N m k = Ok m' → sharding m' = sharding m.
Proof. unfold Remove. destruct (GetShard N m k); simpl; intros; by simplify_eq. Qed.

Lemma foldl_Fault {A B} (g : result A → B → result A) (l : list B) (e : fault) :
  (∀ b, g (Fault e) b = Fault e) → foldl g (Fault e) l = Fault e.
Proof. intros Hg. induction l as [|b l IH]; simpl; [done|]. by rewrite Hg. Qed.

Lemma fold_Set_sharding N (l : list (K * V)) m m' :
  foldl (λ r kv, m' ← r; Set_ N m' kv.1 kv.2) (Ok m) l = Ok m' →
  sharding m' = sharding m.
Proof.
  revert m. induction l as [|[k v] l IH]; intros m; simpl; [by intros [= <-]|].
  destruct (Set_ N m k v) as [m1|e] eqn:HS.
  - intros Hf. rewrite (IH m1 Hf). by eapply Set_sharding.
  - by rewrite foldl_Fault.
Qed.




(** ** Single keys, again *)

(** X7: on an initialized map [Pop] returns what [Get] returns and
    leaves the map [Remove] leaves; the key is absent afterwards. *)
Theorem Pop_is_Get_then_Remove N m k :
  initialized N m →
  ∃ v ok m', Get N m k = Ok (v, ok) ∧ Remove N m k = Ok m' ∧
             Pop N m k = Ok (m', (v, ok)) ∧
             Get N m' k = Ok (zero_value, false).
Proof.
  intros Hi. rewrite Pop_unfold, Get_spec by done.
  destruct (Remove_spec N m k Hi) as (m' & -> & Hi' & He). simpl.
  destruct (found (entry N m k)) as [v ok]. exists v, ok, m'.
  split_and!; [done..|]. rewrite Get_spec, He by done. by rewrite decide_True.
Qed.

(** X8: on an initialized map a second [Remove] of the same key changes
    nothing: it leaves the very map the first one left. *)
Theorem Remove_idempotent N m k :
  initialized N m →
  ∃ m1, Remove N m k = Ok m1 ∧ Remove N m1 k = Ok m1.
Proof.
  intros Hi. destruct (Remove_spec N m k Hi) as (m1 & HR1 & Hi1 & He1).
  destruct (Remove_spec N m1 k Hi1) as (m2 & HR2 & Hi2 & He2).
  exists m1. split; [done|]. rewrite HR2. f_equal.
  apply (initialized_ext N); [done..|by eapply Remove_sharding|].
  intros k'. rewrite He2, He1. by destruct (decide (k' = k)).
Qed.

(** X9: on an initialized map the last [Set] of a key wins: [Set k v1]
    followed by [Set k v2] leaves the map that [Set k v2] alone leaves. *)
Theorem Set_overwrites N m k v1 v2 :
  initialized N m →
  ∃ m1 m2, Set_ N m k v1 = Ok m1 ∧ Set_ N m1 k v2 = Ok m2 ∧ Set_ N m k v2 = Ok m2.
Proof.
  intros Hi. destruct (Set_spec N m k v1 Hi) as (m1 & HS1 & Hi1 & He1).
  destruct (Set_spec N m1 k v2 Hi1) as (m2 & HS2 & Hi2 & He2).
  destruct (Set_spec N m k v2 Hi) as (m3 & HS3 & Hi3 & He3).
  exists m1, m2. split_and!; [done..|]. rewrite HS3. f_equal.
  apply (initialized_ext N); [done..| |].
  - rewrite (Set_sharding _ _ _ _ _ HS3), (Set_sharding _ _ _ _ _ HS2).
    symmetry. by eapply Set_sharding.
  - intros k'. rewrite He3, He2, He1. by destruct (decide (k' = k)).
Qed.

(** X10: on an initialized map [Set] calls on different keys commute:
    either order leaves the same map (also when both keys share a
    shard). *)
Theorem Set_commutes N m k1 v1 k2 v2 :
  initialized N m →
  k1 ≠ k2 →
  ∃ ma mb mab, Set_ N m k1 v1 = Ok ma ∧ Set_ N ma k2 v2 = Ok mab ∧
               Set_ N m k2 v2 = Ok mb ∧ Set_ N mb k1 v1 = Ok mab.
Proof.
  intros Hi Hne. destruct (Set_spec N m k1 v1 Hi) as (ma & HSa & Hia & Hea).
  destruct (Set_spec N ma k2 v2 Hia) as (mab & HSab & Hiab & Heab).
  destruct (Set_spec N m k2 v2 Hi) as (mb & HSb & Hib & Heb).
  destruct (Set_spec N mb k1 v1 Hib) as (mba & HSba & Hiba & Heba).
  exists ma, mb, mab. split_and!; [done..|]. rewrite HSba. f_equal.
  apply (initialized_ext N); [done..| |].
  - rewrite (Set_sharding _ _ _ _ _ HSba), (Set_sharding _ _ _ _ _ HSb).
    rewrite (Set_sharding _ _ _ _ _ HSab). symmetry. by eapply Set_sharding.
  - intros k'. rewrite Heba, Heb, Heab, Hea.
    destruct (decide (k' = k1)), (decide (k' = k2)); congruence.
Qed.

(** ** Bulk operations, again *)

Lemma no_entries N m :
  initialized N m → (∀ k, entry N m k = None) →
  Items range_map interleave N m = Ok ∅ ∧ Count N m = Ok 0%Z ∧
  IsEmpty N m = Ok true ∧ Keys range_map interleave N m = Ok [] ∧
  ∀ k, Get N m k = Ok (zero_value, false).
Proof.
  intros Hi He. destruct (Items_spec N m Hi) as (tmp & HI & Ht).
  assert (tmp = ∅) as -> by (apply map_empty; intros k; by rewrite Ht).
  pose proof (bindings_perm N m ∅ Hi Ht) as Hp.
  rewrite map_to_list_empty in Hp. apply Permutation_nil_r in Hp.
  assert (Count N m = Ok 0%Z) as HC by (rewrite Count_bindings by done; by rewrite Hp).
  split_and!; [done|done| | |].
  - unfold IsEmpty. by rewrite HC.
  - unfold Keys. rewrite HC. simpl. destruct Hi as [HN Hlen _ _].
    destruct (decide (N < 0)%Z); [lia|].
    destruct (decide (Z.to_nat N < length (shards m))); [lia|].
    destruct (decide (length (shards m) < Z.to_nat N)); [lia|].
    f_equal. apply Permutation_nil_r. rewrite interleave_perm.
    change [] with ((@nil (K * V)).*1). rewrite <- Hp, fmap_concat.
    by rewrite <- list_fmap_compose.
  - intros k. rewrite Get_spec by done. by rewrite He.
Qed.


(** X12: on an initialized map [Clear] returns an empty map: [Items] and
    [Keys] are empty, [Count] is 0 and [Get] finds no key. *)
Theorem Clear_empties N m :
  initialized N m →
  ∃ m', Clear range_map interleave N m = Ok m' ∧ initialized N m' ∧
        Items range_map interleave N m' = Ok ∅ ∧ Count N m' = Ok 0%Z ∧
        IsEmpty N m' = Ok true ∧ Keys range_map interleave N m' = Ok [] ∧
        ∀ k, Get N m' k = Ok (zero_value, false).
Proof.
  intros Hi. destruct (IterBuffered_spec N m Hi) as (ch & Hch & Hcol).
  destruct (fold_Remove_spec N ch m Hi) as (m' & Hf & Hi' & He).
  exists m'. unfold Clear. rewrite Hch. simpl. split; [done|]. split; [done|].
  apply no_entries; [done|]. intros k. rewrite He.
  destruct (decide (k ∈ Key <$> ch)) as [|Hk]; [done|].
  rewrite <- Hcol, collect_lookup. apply bind_of_notin.
  by rewrite <- list_fmap_compose.
Qed.

(** X13: on an initialized map, after [MSet data] a key of [data] is
    bound to its value in [data] and every other key is bound as
    before. *)
Theorem MSet_Get N m (data : gmap K V) :
  initialized N m →
  ∃ m', MSet range_map N m data = Ok m' ∧ initialized N m' ∧
        ∀ k, Get N m' k =
               match data !! k with
               | Some v => Ok (v, true)
               | None => Get N m k
               end.
Proof.
  intros Hi. destruct (MSet_spec N m data Hi) as (m' & HM & Hi' & He).
  exists m'. split_and!; [done..|]. intros k.
  rewrite !Get_spec, He by done. by destruct (data !! k).
Qed.

(** X14: on an initialized map, when the input decodes, [UnmarshalJSON]
    returns a nil error and merges: a decoded key is bound to its
    decoded value, and the keys the input does not mention keep their
    bindings. *)
Theorem UnmarshalJSON_merges N m (b : list Byte.byte) (tmp : gmap K V) :
  initialized N m →
  json_Unmarshal b = inl tmp →
  ∃ m', UnmarshalJSON range_map error json_Unmarshal N m b = Ok (m', None) ∧
        initialized N m' ∧
        ∀ k, Get N m' k =
               match tmp !! k with
               | Some v => Ok (v, true)
               | None => Get N m k
               end.
Proof.
  intros Hi Hdec. pose proof (UnmarshalJSON_spec N m b Hi) as HU.
  rewrite Hdec in HU. destruct HU as (m' & HU & HM).
  destruct (MSet_spec N m tmp Hi) as (m2 & HM2 & Hi' & He).
  assert (m2 = m') as -> by congruence.
  exists m'. split_and!; [done..|]. intros k.
  rewrite !Get_spec, He by done. by destruct (tmp !! k).
Qed.

(** X15: [create] under a shard count that is not positive: a negative
    count stops in [make]; under 0 the map has no shard, and then every
    keyed operation stops with an integer division by zero, the
    operations that take a snapshot say the map is not initialized, and
    [Count] returns 0. *)
Theorem create_nonpositive (SHARD_COUNT : Z) (f : K → Z) k v :
  (SHARD_COUNT ≤ 0)%Z →
  ((SHARD_COUNT < 0)%Z → create (V:=V) SHARD_COUNT f = Fault MakeSliceLen) ∧
  (SHARD_COUNT = 0%Z →
   ∃ m, create SHARD_COUNT f = Ok m ∧ shards m = [] ∧
        Get SHARD_COUNT m k = Fault DivideByZero ∧
        Set_ SHARD_COUNT m k v = Fault DivideByZero ∧
        Remove SHARD_COUNT m k = Fault DivideByZero ∧
        Items range_map interleave SHARD_COUNT m = Fault NotInitialized ∧
        Clear range_map interleave SHARD_COUNT m = Fault NotInitialized ∧
        Count SHARD_COUNT m = Ok 0%Z).
Proof.
  intros Hle. split.
  - intros Hlt. unfold create. by rewrite decide_True.
  - intros ->. eexists. split_and!; done.
Qed.

(** ** The map as one flat mapping *)

Lemma Items_entries N m (tmp : gmap K V) :
  initialized N m → (∀ k, tmp !! k = entry N m k) →
  Items range_map interleave N m = Ok tmp ∧ Count N m = Ok (Z.of_nat (size tmp)).
Proof.
  intros Hi Ht. destruct (Items_spec N m Hi) as (tmp' & HI & Ht').
  assert (tmp' = tmp) as -> by (apply map_eq; intros k; by rewrite Ht, Ht').
  split; [done|]. rewrite Count_bindings by done.
  by rewrite (Permutation_length (bindings_perm N m tmp Hi Ht)), length_map_to_list.
Qed.

(** X19: on an initialized map, [Items] after [Set k v] is [Items]
    before with [k] bound to [v], and [Items] after [Remove k] is [Items]
    before without [k]: the shards together behave as one mapping. *)
Theorem Items_after_Set_Remove N m k v :
  initialized N m →
  ∃ tmp m1 m2,
    Items range_map interleave N m = Ok tmp ∧
    Set_ N m k v = Ok m1 ∧ Items range_map interleave N m1 = Ok (<[k := v]> tmp) ∧
    Remove N m k = Ok m2 ∧ Items range_map interleave N m2 = Ok (delete k tmp).
Proof.
  intros Hi. destruct (Items_spec N m Hi) as (tmp & HI & Ht).
  destruct (Set_spec N m k v Hi) as (m1 & HS & Hi1 & He1).
  destruct (Remove_spec N m k Hi) as (m2 & HR & Hi2 & He2).
  exists tmp, m1, m2. split_and!; [done|done| |done|].
  - apply (Items_entries N m1); [done|]. intros k'. rewrite He1, lookup_insert.
    destruct (decide (k = k')), (decide (k' = k)); congruence.
  - apply (Items_entries N m2); [done|]. intros k'. rewrite He2, lookup_delete.
    destruct (decide (k = k')), (decide (k' = k)); congruence.
Qed.

(** X20: on an initialized map, [Set] of a key that [Has] reports absent
    raises [Count] by one and [Set] of a present key leaves [Count];
    [Remove] of a present key lowers [Count] by one and [Remove] of an
    absent key leaves it. *)
Theorem Count_after_Set_Remove N m k v :
  initialized N m →
  ∃ (present : bool) (n : Z) m1 m2,
    Has N m k = Ok present ∧ Count N m = Ok n ∧
    Set_ N m k v = Ok m1 ∧
    Count N m1 = Ok (if present then n else n + 1)%Z ∧
    Remove N m k = Ok m2 ∧
    Count N m2 = Ok (if present then n - 1 else n)%Z.
Proof.
  intros Hi. destruct (Items_spec N m Hi) as (tmp & HI & Ht).
  destruct (Set_spec N m k v Hi) as (m1 & HS & Hi1 & He1).
  destruct (Remove_spec N m k Hi) as (m2 & HR & Hi2 & He2).
  assert (Count N m1 = Ok (Z.of_nat (size (<[k := v]> tmp)))) as HC1.
  { apply (Items_entries N m1); [done|]. intros k'. rewrite He1, lookup_insert.
    destruct (decide (k = k')), (decide (k' = k)); congruence. }
  assert (Count N m2 = Ok (Z.of_nat (size (delete k tmp)))) as HC2.
  { apply (Items_entries N m2); [done|]. intros k'. rewrite He2, lookup_delete.
    destruct (decide (k = k')), (decide (k' = k)); congruence. }
  destruct (Items_entries N m tmp Hi Ht) as [_ HC].
  rewrite Has_spec by done. rewrite <- Ht.
  destruct (tmp !! k) as [v0|] eqn:Hk; simpl.
  - exists true, (Z.of_nat (size tmp)), m1, m2. split_and!; [done..| |done|].
    + rewrite HC1. by rewrite map_size_insert, Hk.
    + rewrite HC2. f_equal. rewrite map_size_delete, Hk.
      assert (size tmp ≠ 0) as Hnz.
      { rewrite map_size_empty_iff. intros ->. by rewrite lookup_empty in Hk. }
      simpl. lia.
  - exists false, (Z.of_nat (size tmp)), m1, m2. split_and!; [done..| |done|].
    + rewrite HC1. f_equal. rewrite map_size_insert, Hk. simpl. lia.
    + rewrite HC2. by rewrite map_size_delete, Hk.
Qed.

(** X21: on an initialized map, the binding of a key is in the map
    ([GetMap]) of the shard [GetShard] returns for it, where [Get] reads
    it, and in the map of no other shard. *)
Theorem GetShard_holds_binding N m k :
  initialized N m →
  ∃ p shard,
    GetShard N m k = Ok p ∧ p < Z.to_nat N ∧ shards m !! p = Some shard ∧
    Get N m k = Ok (found (GetMap shard !! k)) ∧
    ∀ p' shard', shards m !! p' = Some shard' → p' ≠ p → GetMap shard' !! k = None.
Proof.
  intros Hi. with_shard Hi k. exists (route N f k), s.
  split_and!; [done|apply route_lt, (init_count _ _ Hi)|done| |].
  - rewrite Get_spec by done. by rewrite He.
  - intros p' s' Hs' Hne. unfold GetMap.
    destruct (items s' !! k) as [v|] eqn:Hv; [|done].
    exfalso. apply Hne. symmetry. eapply (init_routed _ _ Hi); eauto.
Qed.

(** X22: on an initialized map, after [SetIfAbsent] the key is present
    ([Has] returns true), and a second [SetIfAbsent] of the key returns
    false and leaves the map as it is, whatever value it offers. *)
Theorem SetIfAbsent_once N m k v v' :
  initialized N m →
  ∃ m1 b, SetIfAbsent N m k v = Ok (m1, b) ∧ Has N m1 k = Ok true ∧
          SetIfAbsent N m1 k v' = Ok (m1, false).
Proof.
  intros Hi. rewrite SetIfAbsent_unfold by done.
  destruct (entry N m k) as [v0|] eqn:Hk.
  - exists m, false. split_and!; [done| |].
    + rewrite Has_spec by done. by rewrite Hk.
    + rewrite SetIfAbsent_unfold by done. by rewrite Hk.
  - destruct (Set_spec N m k v Hi) as (m1 & -> & Hi1 & He1). simpl.
    assert (entry N m1 k = Some v) as Hk1 by (rewrite He1; by rewrite decide_True).
    exists m1, true. split_and!; [done| |].
    + rewrite Has_spec by done. by rewrite Hk1.
    + rewrite SetIfAbsent_unfold by done. by rewrite Hk1.
Qed.

End proofs.


(** X16: on an initialized map the order in which [MSet] ranges over
    [data] does not matter: any two orders leave the same map. *)
Theorem MSet_order_irrelevant {K : Type} `{Countable K} {V : Type}
    (range_map range_map2 : gmap K V → list (K * V))
    (N : Z) (m : ConcurrentMap K V) (data : gmap K V) :
  (∀ tmp, range_map tmp ≡ₚ map_to_list tmp) →
  (∀ tmp, range_map2 tmp ≡ₚ map_to_list tmp) →
  initialized N m →
  ∃ m', MSet range_map N m data = Ok m' ∧ MSet range_map2 N m data = Ok m'.
Proof.
  intros Hr1 Hr2 Hi.
  destruct (MSet_spec range_map Hr1 N m data Hi) as (m1 & HM1 & Hi1 & He1).
  destruct (MSet_spec range_map2 Hr2 N m data Hi) as (m2 & HM2 & Hi2 & He2).
  exists m1. split; [done|]. rewrite HM2. f_equal.
  apply (initialized_ext N); [done..| |].
  - rewrite (fold_Set_sharding N _ _ _ HM2). symmetry.
    apply (fold_Set_sharding N _ _ _ HM1).
  - intros k. by rewrite He1, He2.
Qed.


Lemma string_bytes_app (s1 s2 : string) :
  string_bytes (String.append s1 s2) = string_bytes s1 ++ string_bytes s2.
Proof. induction s1 as [|c s1 IH]; simpl; [done|]. by rewrite IH. Qed.

(** X18: [fnv32] hashes a string byte by byte from the left: the hash of
    a concatenation is the loop of [fnv32] run over the second string
    from the hash of the first. *)
Theorem fnv32_append (s1 s2 : string) :
  fnv32 (String.append s1 s2) = fnv32_loop s2 (String.length s2) 0 (fnv32 s1).
Proof.
  unfold fnv32.
  rewrite (fnv32_loop_fold (String.append s1 s2) (String.append s1 s2) 0) by done.
  rewrite (fnv32_loop_fold s1 s1 0) by done.
  rewrite (fnv32_loop_fold s2 s2 0) by done.
  by rewrite string_bytes_app, fold_left_app.
Qed.

(** * Concrete runs *)

Lemma range_sorted_perm {K V : Type} `{Countable K} (tmp : gmap K V) :
  range_sorted tmp ≡ₚ map_to_list tmp.
Proof. reflexivity. Qed.

Lemma shard_by_shard_perm (A : Type) (chans : list (list A)) :
  shard_by_shard A chans ≡ₚ concat chans.
Proof. reflexivity. Qed.

Lemma bytes_pos_bytes (p : positive) : bytes_pos (pos_bytes p) = Some p.
Proof. induction p as [p IH|p IH|]; simpl; [by rewrite IH..|done]. Qed.

Lemma digits_roundtrip {K V : Type} `{Countable K} `{Countable V}
    (tmp : gmap K V) (bs : list Byte.byte) :
  digits_Marshal tmp = inl bs → digits_Unmarshal bs = inl tmp.
Proof.
  unfold digits_Marshal, digits_Unmarshal. intros [= <-].
  rewrite bytes_pos_bytes. simpl. by rewrite decode_encode.
Qed.

Lemma fresh32_initialized : initialized 32 fresh32.
Proof.
  destruct (create_initialized (V:=Z) 32 fnv32) as (m & Hc & Hi & _); [lia|].
  assert (create 32 fnv32 = Ok fresh32) as Hf by reflexivity.
  congruence.
Qed.

Lemma example_map_initialized : initialized 32 example_map.
Proof.
  destruct (Set_spec 32 fresh32 "a"%string 100%Z fresh32_initialized) as (m & HS & Hi & _).
  assert (Set_ 32 fresh32 "a"%string 100%Z = Ok example_map) as Hf by reflexivity.
  congruence.
Qed.

Example example_map_built :
  (m ← New 32; Set_ 32 m "a"%string 100%Z) = Ok example_map.
Proof. reflexivity. Qed.

(** C1, witness: under shard count 32, on a fresh map, a [Set], two
    assignments of [SHARD_COUNT] (16, then 32 again), a [Get] and a
    [Count]. *)
Lemma SHARD_COUNT_read_at_call_witness :
  initialized 32 fresh32 ∧ calls_at 32 32 restoring_prog ∧
  ((∃ sc' m' rs,
      run range_sorted shard_by_shard string digits_Marshal digits_Unmarshal
          32 fresh32 restoring_prog = Ok (sc', m', rs) ∧
      exec_all range_sorted shard_by_shard string digits_Marshal digits_Unmarshal
          32 fresh32 (calls_of restoring_prog) = Ok (m', rs) ∧
      initialized 32 m') ∧
   (∀ (c : Z) (f : string → Z) (k : string),
      (0 < c < 2 ^ 63)%Z → sharding fresh32 = Some f →
      GetShard c fresh32 k =
        if decide (route c f k < Z.to_nat 32) then Ok (route c f k)
        else Fault IndexOutOfRange)).
Proof.
  assert (calls_at 32 32 restoring_prog) as Hat by (simpl; repeat split).
  split; [exact fresh32_initialized|]. split; [exact Hat|].
  exact (SHARD_COUNT_read_at_call range_sorted shard_by_shard string
           digits_Marshal digits_Unmarshal range_sorted_perm shard_by_shard_perm
           32 fresh32 32 restoring_prog fresh32_initialized Hat).
Defined.

(** C1, counterexample: the map built under shard count 32 holds "a" in
    shard 30.  With [SHARD_COUNT] changed to 16, [Get] reads shard 14 and
    misses the key and [Count] sums the first 16 shards only; with
    [SHARD_COUNT] changed to 64, [Get] of "b" (shard 61) indexes out of
    range. *)
Lemma SHARD_COUNT_changed_counterexample :
  initialized 32 example_map ∧
  Get 32 example_map "a"%string = Ok (100%Z, true) ∧
  Get 16 example_map "a"%string = Ok (0%Z, false) ∧
  Get 16 example_map "a"%string ≠ Get 32 example_map "a"%string ∧
  Get 32 example_map "b"%string = Ok (0%Z, false) ∧
  Get 64 example_map "b"%string = Fault IndexOutOfRange ∧
  Count 32 example_map = Ok 1%Z ∧
  Count 16 example_map = Ok 0%Z.
Proof.
  split; [exact example_map_initialized|].
  split_and!; try (vm_compute; reflexivity).
  vm_compute. discriminate.
Qed.

(** C2, witness: the zero value under the default shard count. *)
Lemma zero_map_faults_witness :
  (0 < 32)%Z ∧
  Items range_sorted shard_by_shard 32 (zero_map (K:=string) (V:=Z))
    = Fault NotInitialized ∧
  Get 32 (zero_map (K:=string) (V:=Z)) "key"%string = Fault NilDereference ∧
  Count 32 (zero_map (K:=string) (V:=Z)) = Fault IndexOutOfRange.
Proof.
  assert (0 < 32)%Z as Hsc by lia.
  split; [exact Hsc|].
  destruct (zero_map_faults (K:=string) (V:=Z) range_sorted shard_by_shard string
              digits_Marshal 32 "key"%string 1%Z add_cb (λ _ _ _, true)
              nat (λ _ _ n, S n) 0 Hsc)
    as ((_ & _ & HI & _) & (_ & HG & _) & (HC & _) & _).
  split_and!; [exact HI|exact HG|exact HC].
Defined.

(** C2, counterexample: [Get] and [Count] on the zero value stop with
    Go's runtime errors, not with the panic that names the map as not
    initialized. *)
Lemma zero_map_Get_counterexample :
  Get 32 (zero_map (K:=string) (V:=Z)) "key"%string = Fault NilDereference ∧
  Get 32 (zero_map (K:=string) (V:=Z)) "key"%string ≠ Fault NotInitialized ∧
  Set_ 32 (zero_map (K:=string) (V:=Z)) "key"%string 100%Z = Fault NilDereference ∧
  Count 32 (zero_map (K:=string) (V:=Z)) = Fault IndexOutOfRange ∧
  Count 32 (zero_map (K:=string) (V:=Z)) ≠ Fault NotInitialized.
Proof. split_and!; try reflexivity; discriminate. Qed.

(** C3, witness: an upsert of 1 under "a", bound to 100. *)
Lemma Upsert_combines_witness :
  initialized 32 example_map ∧
  ∃ m', Upsert 32 example_map "a"%string 1%Z add_cb = Ok (m', 101%Z) ∧
        Get 32 m' "a"%string = Ok (101%Z, true).
Proof.
  split; [exact example_map_initialized|].
  destruct (Upsert_combines 32 example_map "a"%string 1%Z add_cb example_map_initialized)
    as [(existing & ok & m' & HG & HU & HG' & _) _].
  assert (Get 32 example_map "a"%string = Ok (100%Z, true)) as HG0 by (vm_compute; reflexivity).
  rewrite HG0 in HG. injection HG as <- <-.
  exists m'. split; [exact HU|exact HG'].
Defined.

(** C4, witness: "a" set to 100 in a fresh map, then calls on other keys
    and reads. *)
Lemma Set_Get_until_written_witness :
  initialized 32 fresh32 ∧
  (∀ c, c ∈ other_calls → ¬ writes string digits_Unmarshal c "a"%string) ∧
  ((∃ m1 m2 rs,
      Set_ 32 fresh32 "a"%string 100%Z = Ok m1 ∧
      Get 32 m1 "a"%string = Ok (100%Z, true) ∧
      exec_all range_sorted shard_by_shard string digits_Marshal digits_Unmarshal
          32 m1 other_calls = Ok (m2, rs) ∧
      Get 32 m2 "a"%string = Ok (100%Z, true)) ∧
   (∃ m3, Remove 32 fresh32 "a"%string = Ok m3 ∧
          Get 32 m3 "a"%string = Ok (zero_value, false))).
Proof.
  assert (∀ c, c ∈ other_calls → ¬ writes string digits_Unmarshal c "a"%string) as Hw.
  { intros c Hc. unfold other_calls in Hc.
    rewrite !elem_of_cons, elem_of_nil in Hc.
    destruct Hc as [->|[->|[->|[->|[->|[]]]]]]; simpl; (discriminate || tauto). }
  split; [exact fresh32_initialized|]. split; [exact Hw|].
  exact (Set_Get_until_written range_sorted shard_by_shard string digits_Marshal
           digits_Unmarshal range_sorted_perm shard_by_shard_perm
           32 fresh32 "a"%string 100%Z other_calls fresh32_initialized Hw).
Defined.

(** C5, witness: [SetIfAbsent("a", 7)] where "a" is bound to 100. *)
Lemma SetIfAbsent_iff_absent_witness :
  initialized 32 example_map ∧
  ∃ old present m',
    Get 32 example_map "a"%string = Ok (old, present) ∧
    SetIfAbsent 32 example_map "a"%string 7%Z = Ok (m', negb present) ∧
    initialized 32 m' ∧
    (present = false →
       Set_ 32 example_map "a"%string 7%Z = Ok m' ∧ Get 32 m' "a"%string = Ok (7%Z, true)) ∧
    (present = true → m' = example_map ∧ Get 32 m' "a"%string = Ok (old, true)).
Proof.
  split; [exact example_map_initialized|].
  exact (SetIfAbsent_iff_absent 32 example_map "a"%string 7%Z example_map_initialized).
Defined.

(** C6, witness: [RemoveCb] on "a", bound to 100, with a callback that
    asks for the removal of values above 50. *)
Lemma RemoveCb_removes_iff_witness :
  initialized 32 example_map ∧
  ∃ value present m',
    Get 32 example_map "a"%string = Ok (value, present) ∧
    RemoveCb 32 example_map "a"%string (λ _ v _, bool_decide (50 < v)%Z)
      = Ok (m', bool_decide (50 < value)%Z) ∧
    initialized 32 m' ∧
    (bool_decide (50 < value)%Z && present = true →
       Remove 32 example_map "a"%string = Ok m' ∧
       Get 32 m' "a"%string = Ok (zero_value, false)) ∧
    (bool_decide (50 < value)%Z && present = false → m' = example_map).
Proof.
  split; [exact example_map_initialized|].
  exact (RemoveCb_removes_iff 32 example_map "a"%string
           (λ _ v _, bool_decide (50 < v)%Z) example_map_initialized).
Defined.


(** C9, witness: a byte that is no digit makes the decoder fail. *)
Lemma UnmarshalJSON_error_unchanged_witness :
  initialized 32 example_map ∧
  UnmarshalJSON range_sorted string digits_Unmarshal 32 example_map [Byte.x32]
    = Ok (example_map, Some "invalid character"%string) ∧
  ∀ m' e,
    UnmarshalJSON range_sorted string digits_Unmarshal 32 example_map [Byte.x32]
      = Ok (m', Some e) →
    m' = example_map ∧ digits_Unmarshal (K:=string) (V:=Z) [Byte.x32] = inr e ∧
    ∀ k, Get 32 m' k = Get 32 example_map k.
Proof.
  split; [exact example_map_initialized|]. split; [reflexivity|].
  exact (proj2 (UnmarshalJSON_error_unchanged range_sorted string digits_Unmarshal
                  range_sorted_perm 32 example_map [Byte.x32] example_map_initialized)).
Defined.

(** C10, witness: writes under "b" seen from "a". *)
Lemma other_keys_unchanged_witness :
  initialized 32 example_map ∧ "a"%string ≠ "b"%string ∧
  (∃ m', Set_ 32 example_map "b"%string 7%Z = Ok m' ∧
         Get 32 m' "a"%string = Get 32 example_map "a"%string) ∧
  (∃ m', Remove 32 example_map "b"%string = Ok m' ∧
         Get 32 m' "a"%string = Get 32 example_map "a"%string) ∧
  (∃ m' r, Pop 32 example_map "b"%string = Ok (m', r) ∧
           Get 32 m' "a"%string = Get 32 example_map "a"%string) ∧
  (∃ m' b, SetIfAbsent 32 example_map "b"%string 7%Z = Ok (m', b) ∧
           Get 32 m' "a"%string = Get 32 example_map "a"%string) ∧
  (∃ m' res, Upsert 32 example_map "b"%string 7%Z add_cb = Ok (m', res) ∧
             Get 32 m' "a"%string = Get 32 example_map "a"%string).
Proof.
  assert ("a"%string ≠ "b"%string) as Hne by discriminate.
  split; [exact example_map_initialized|]. split; [exact Hne|].
  exact (other_keys_unchanged range_sorted shard_by_shard string digits_Marshal
           digits_Unmarshal range_sorted_perm shard_by_shard_perm
           32 example_map "b"%string "a"%string 7%Z add_cb example_map_initialized Hne).
Defined.

(** X1, witness: the map with "a" bound. *)
Lemma Count_size_Items_witness :
  initialized 32 example_map ∧
  ∃ tmp, Items range_sorted shard_by_shard 32 example_map = Ok tmp ∧
         Count 32 example_map = Ok (Z.of_nat (size tmp)).
Proof.
  split; [exact example_map_initialized|].
  exact (Count_size_Items range_sorted shard_by_shard range_sorted_perm
           shard_by_shard_perm 32 example_map example_map_initialized).
Defined.

(** X2, witness. *)
Lemma IsEmpty_iff_no_Items_witness :
  initialized 32 example_map ∧
  ∃ tmp b, Items range_sorted shard_by_shard 32 example_map = Ok tmp ∧
           IsEmpty 32 example_map = Ok b ∧ (b = true ↔ tmp = ∅).
Proof.
  split; [exact example_map_initialized|].
  exact (IsEmpty_iff_no_Items range_sorted shard_by_shard range_sorted_perm
           shard_by_shard_perm 32 example_map example_map_initialized).
Defined.

(** X3, witness. *)
Lemma Keys_of_Items_witness :
  initialized 32 example_map ∧
  ∃ tmp keys, Items range_sorted shard_by_shard 32 example_map = Ok tmp ∧
              Keys range_sorted shard_by_shard 32 example_map = Ok keys ∧
              keys ≡ₚ (map_to_list tmp).*1 ∧ NoDup keys ∧
              Count 32 example_map = Ok (Z.of_nat (length keys)).
Proof.
  split; [exact example_map_initialized|].
  exact (Keys_of_Items range_sorted shard_by_shard range_sorted_perm
           shard_by_shard_perm 32 example_map example_map_initialized).
Defined.

(** X4, witness. *)
Lemma IterBuffered_each_binding_once_witness :
  initialized 32 example_map ∧
  ∃ tmp ch, Items range_sorted shard_by_shard 32 example_map = Ok tmp ∧
            IterBuffered range_sorted shard_by_shard 32 example_map = Ok ch ∧
            Iter range_sorted shard_by_shard 32 example_map = Ok ch ∧
            (λ item, (Key item, Val item)) <$> ch ≡ₚ map_to_list tmp.
Proof.
  split; [exact example_map_initialized|].
  exact (IterBuffered_each_binding_once range_sorted shard_by_shard range_sorted_perm
           shard_by_shard_perm 32 example_map example_map_initialized).
Defined.

(** X5, witness. *)
Lemma IterCb_each_binding_once_witness :
  initialized 32 example_map ∧
  ∃ tmp l, Items range_sorted shard_by_shard 32 example_map = Ok tmp ∧
           l ≡ₚ map_to_list tmp ∧
           ∀ (S : Type) (fn : string → Z → S → S) (s0 : S),
             IterCb range_sorted example_map fn s0
               = foldl (λ s kv, fn kv.1 kv.2 s) s0 l.
Proof.
  split; [exact example_map_initialized|].
  exact (IterCb_each_binding_once range_sorted shard_by_shard range_sorted_perm
           shard_by_shard_perm 32 example_map example_map_initialized).
Defined.


(** X7, witness. *)
Lemma Pop_is_Get_then_Remove_witness :
  initialized 32 example_map ∧
  ∃ v ok m', Get 32 example_map "a"%string = Ok (v, ok) ∧
             Remove 32 example_map "a"%string = Ok m' ∧
             Pop 32 example_map "a"%string = Ok (m', (v, ok)) ∧
             Get 32 m' "a"%string = Ok (zero_value, false).
Proof.
  split; [exact example_map_initialized|].
  exact (Pop_is_Get_then_Remove 32 example_map "a"%string example_map_initialized).
Defined.

(** X8, witness. *)
Lemma Remove_idempotent_witness :
  initialized 32 example_map ∧
  ∃ m1, Remove 32 example_map "a"%string = Ok m1 ∧ Remove 32 m1 "a"%string = Ok m1.
Proof.
  split; [exact example_map_initialized|].
  exact (Remove_idempotent 32 example_map "a"%string example_map_initialized).
Defined.

(** X9, witness. *)
Lemma Set_overwrites_witness :
  initialized 32 example_map ∧
  ∃ m1 m2, Set_ 32 example_map "a"%string 1%Z = Ok m1 ∧
           Set_ 32 m1 "a"%string 2%Z = Ok m2 ∧
           Set_ 32 example_map "a"%string 2%Z = Ok m2.
Proof.
  split; [exact example_map_initialized|].
  exact (Set_overwrites 32 example_map "a"%string 1%Z 2%Z example_map_initialized).
Defined.

(** X10, witness. *)
Lemma Set_commutes_witness :
  initialized 32 example_map ∧ "b"%string ≠ "c"%string ∧
  ∃ ma mb mab, Set_ 32 example_map "b"%string 1%Z = Ok ma ∧
               Set_ 32 ma "c"%string 2%Z = Ok mab ∧
               Set_ 32 example_map "c"%string 2%Z = Ok mb ∧
               Set_ 32 mb "b"%string 1%Z = Ok mab.
Proof.
  assert ("b"%string ≠ "c"%string) as Hne by discriminate.
  split; [exact example_map_initialized|]. split; [exact Hne|].
  exact (Set_commutes 32 example_map "b"%string 1%Z "c"%string 2%Z
           example_map_initialized Hne).
Defined.


(** X12, witness. *)
Lemma Clear_empties_witness :
  initialized 32 example_map ∧
  ∃ m', Clear range_sorted shard_by_shard 32 example_map = Ok m' ∧
        initialized 32 m' ∧
        Items range_sorted shard_by_shard 32 m' = Ok ∅ ∧ Count 32 m' = Ok 0%Z ∧
        IsEmpty 32 m' = Ok true ∧ Keys range_sorted shard_by_shard 32 m' = Ok [] ∧
        ∀ k, Get 32 m' k = Ok (zero_value, false).
Proof.
  split; [exact example_map_initialized|].
  exact (Clear_empties range_sorted shard_by_shard range_sorted_perm
           shard_by_shard_perm 32 example_map example_map_initialized).
Defined.

(** X13, witness. *)
Lemma MSet_Get_witness :
  initialized 32 example_map ∧
  ∃ m', MSet range_sorted 32 example_map {["b"%string := 1%Z; "c"%string := 2%Z]}
          = Ok m' ∧
        initialized 32 m' ∧
        ∀ k, Get 32 m' k =
               match ({["b"%string := 1%Z; "c"%string := 2%Z]} : gmap string Z) !! k with
               | Some v => Ok (v, true)
               | None => Get 32 example_map k
               end.
Proof.
  split; [exact example_map_initialized|].
  exact (MSet_Get range_sorted range_sorted_perm 32 example_map
           {["b"%string := 1%Z; "c"%string := 2%Z]} example_map_initialized).
Defined.

(** X14, witness: the bytes of the map with "a" bound to 100, merged
    into a fresh map. *)
Lemma UnmarshalJSON_merges_witness :
  initialized 32 fresh32 ∧
  digits_Unmarshal example_bytes = inl ({["a"%string := 100%Z]} : gmap string Z) ∧
  ∃ m', UnmarshalJSON range_sorted string digits_Unmarshal 32 fresh32 example_bytes
          = Ok (m', None) ∧
        initialized 32 m' ∧
        ∀ k, Get 32 m' k =
               match ({["a"%string := 100%Z]} : gmap string Z) !! k with
               | Some v => Ok (v, true)
               | None => Get 32 fresh32 k
               end.
Proof.
  assert (digits_Unmarshal example_bytes = inl ({["a"%string := 100%Z]} : gmap string Z))
    as Hdec by (apply digits_roundtrip; reflexivity).
  split; [exact fresh32_initialized|]. split; [exact Hdec|].
  exact (UnmarshalJSON_merges range_sorted string digits_Unmarshal range_sorted_perm
           32 fresh32 example_bytes {["a"%string := 100%Z]} fresh32_initialized Hdec).
Defined.

(** X15, witness: [SHARD_COUNT] set to 0 before [New]. *)
Lemma create_nonpositive_witness :
  (0 ≤ 0)%Z ∧
  ∃ m : ConcurrentMap string Z,
    create 0 fnv32 = Ok m ∧ shards m = [] ∧
    Get 0 m "a"%string = Fault DivideByZero ∧
    Items range_sorted shard_by_shard 0 m = Fault NotInitialized ∧
    Count 0 m = Ok 0%Z.
Proof.
  assert (0 ≤ 0)%Z as Hle by reflexivity.
  split; [exact Hle|].
  destruct (proj2 (create_nonpositive (V:=Z) range_sorted shard_by_shard 0 fnv32
                     "a"%string 1%Z Hle) eq_refl)
    as (m & Hc & Hs & HG & _ & _ & HI & _ & HC).
  exists m. split_and!; [exact Hc|exact Hs|exact HG|exact HI|exact HC].
Defined.

(** X16, witness: the sorted order against its reverse. *)
Lemma MSet_order_irrelevant_witness :
  initialized 32 example_map ∧
  ∃ m', MSet range_sorted 32 example_map {["b"%string := 1%Z; "c"%string := 2%Z]}
          = Ok m' ∧
        MSet (λ tmp, reverse (map_to_list tmp)) 32 example_map
             {["b"%string := 1%Z; "c"%string := 2%Z]} = Ok m'.
Proof.
  split; [exact example_map_initialized|].
  exact (MSet_order_irrelevant range_sorted (λ tmp, reverse (map_to_list tmp))
           32 example_map {["b"%string := 1%Z; "c"%string := 2%Z]}
           range_sorted_perm (λ tmp, reverse_Permutation (map_to_list tmp))
           example_map_initialized).
Defined.


(** X19, witness. *)
Lemma Items_after_Set_Remove_witness :
  initialized 32 example_map ∧
  ∃ tmp m1 m2,
    Items range_sorted shard_by_shard 32 example_map = Ok tmp ∧
    Set_ 32 example_map "b"%string 1%Z = Ok m1 ∧
    Items range_sorted shard_by_shard 32 m1 = Ok (<["b"%string := 1%Z]> tmp) ∧
    Remove 32 example_map "b"%string = Ok m2 ∧
    Items range_sorted shard_by_shard 32 m2 = Ok (delete "b"%string tmp).
Proof.
  split; [exact example_map_initialized|].
  exact (Items_after_Set_Remove range_sorted shard_by_shard range_sorted_perm
           shard_by_shard_perm 32 example_map "b"%string 1%Z example_map_initialized).
Defined.

(** X20, witness. *)
Lemma Count_after_Set_Remove_witness :
  initialized 32 example_map ∧
  ∃ (present : bool) (n : Z) m1 m2,
    Has 32 example_map "a"%string = Ok present ∧ Count 32 example_map = Ok n ∧
    Set_ 32 example_map "a"%string 7%Z = Ok m1 ∧
    Count 32 m1 = Ok (if present then n else n + 1)%Z ∧
    Remove 32 example_map "a"%string = Ok m2 ∧
    Count 32 m2 = Ok (if present then n - 1 else n)%Z.
Proof.
  split; [exact example_map_initialized|].
  exact (Count_after_Set_Remove range_sorted shard_by_shard range_sorted_perm
           shard_by_shard_perm 32 example_map "a"%string 7%Z example_map_initialized).
Defined.

(** X21, witness. *)
Lemma GetShard_holds_binding_witness :
  initialized 32 example_map ∧
  ∃ p shard,
    GetShard 32 example_map "a"%string = Ok p ∧ p < Z.to_nat 32 ∧
    shards example_map !! p = Some shard ∧
    Get 32 example_map "a"%string = Ok (found (GetMap shard !! "a"%string)) ∧
    ∀ p' shard', shards example_map !! p' = Some shard' → p' ≠ p →
                 GetMap shard' !! "a"%string = None.
Proof.
  split; [exact example_map_initialized|].
  exact (GetShard_holds_binding 32 example_map "a"%string example_map_initialized).
Defined.

(** X22, witness. *)
Lemma SetIfAbsent_once_witness :
  initialized 32 fresh32 ∧
  ∃ m1 b, SetIfAbsent 32 fresh32 "a"%string 1%Z = Ok (m1, b) ∧
          Has 32 m1 "a"%string = Ok true ∧
          SetIfAbsent 32 m1 "a"%string 2%Z = Ok (m1, false).
Proof.
  split; [exact fresh32_initialized|].
  exact (SetIfAbsent_once 32 fresh32 "a"%string 1%Z 2%Z fresh32_initialized).
Defined.
